(** * Yuldeni/ejercicios: the five exercise programs, embedded and verified

    The repository holds five small Python programs: [at_content.py],
    [base_freq.py], [gene_expression.py], [k_mers.py] and [rps.py].  Each
    one is embedded below in a module of its own, function by function, and
    the properties of the specification are proved about these embeddings.

    Python values are modelled as follows.
    - [str] is a list of Unicode code points ([N]).
    - [int] is [Z].
    - [float] is an IEEE 754 binary64 number, [spec_float] of the Standard
      Library; arithmetic on it is the correctly rounded (ties to even)
      image of the exact rational result.
    - [dict] and [set] are stdpp's [gmap] and [gset].
    - a raised exception is the [Raise] case of [result]. *)

From Stdlib Require Import ZArith NArith List String Ascii Lia DecimalString.
From Stdlib Require Import Floats.SpecFloat Sorting.Sorted.
From stdpp Require Import gmap list sorting.

(** ** Exceptions *)

Definition str := list N.

Inductive exn : Type :=
| ValueError (msg : str)
| FileNotFoundError (path : str)
| IOError (reason : str)
| IndexError
| KeyError (key : str)
| ZeroDivisionError
| OverflowError.

Inductive result (A : Type) : Type :=
| Ok (a : A)
| Raise (e : exn).
Arguments Ok {A} a.
Arguments Raise {A} e.

#[global] Instance result_ret : MRet result := fun _ a => Ok a.
#[global] Instance result_bind : MBind result := fun _ _ k r =>
  match r with
  | Ok a => k a
  | Raise e => Raise e
  end.

(** ** Python strings *)

Module PyStr.

(** An ASCII literal as a [str]. *)
Definition lit (s : string) : str :=
  map N_of_ascii (list_ascii_of_string s).

(** A source literal, which the files store in UTF-8, decoded to code
    points (sequences of one to four bytes). *)
Fixpoint utf8_decode (bs : list N) : str :=
  match bs with
  | [] => []
  | b0 :: r0 =>
    if (b0 <? 128)%N then b0 :: utf8_decode r0
    else match r0 with
    | [] => [b0]
    | b1 :: r1 =>
      if (b0 <? 224)%N
      then ((b0 - 192) * 64 + (b1 - 128))%N :: utf8_decode r1
      else match r1 with
      | [] => [b0; b1]
      | b2 :: r2 =>
        if (b0 <? 240)%N
        then ((b0 - 224) * 4096 + (b1 - 128) * 64 + (b2 - 128))%N
               :: utf8_decode r2
        else match r2 with
        | [] => [b0; b1; b2]
        | b3 :: r3 =>
          ((b0 - 240) * 262144 + (b1 - 128) * 4096
            + (b2 - 128) * 64 + (b3 - 128))%N :: utf8_decode r3
        end
      end
    end
  end.

Definition u (s : string) : str := utf8_decode (lit s).

(** [str(n)] for an [int]. *)
Definition of_int (n : Z) : str :=
  lit (NilZero.string_of_int (Z.to_int n)).

(** [str.isspace] on one code point: the characters [str.split()] and
    [str.strip()] treat as whitespace. *)
Definition is_space (c : N) : bool :=
  ((9 <=? c) && (c <=? 13) || (28 <=? c) && (c <=? 32)
   || (c =? 133) || (c =? 160) || (c =? 5760)
   || (8192 <=? c) && (c <=? 8202)
   || (c =? 8232) || (c =? 8233) || (c =? 8239) || (c =? 8287)
   || (c =? 12288))%N.

(** [s.split(sep)] for a one-character separator. *)
Fixpoint split (sep : N) (s : str) : list str :=
  match s with
  | [] => [[]]
  | c :: s' =>
    if (c =? sep)%N then [] :: split sep s'
    else match split sep s' with
         | p :: ps => (c :: p) :: ps
         | [] => [[c]]
         end
  end.

(** [s.split()]: the maximal runs of non-whitespace characters. *)
Fixpoint split_ws (s : str) : list str :=
  match s with
  | [] => []
  | c :: s' =>
    if is_space c then split_ws s'
    else match s' with
         | [] => [[c]]
         | c' :: _ =>
           if is_space c' then [c] :: split_ws s'
           else match split_ws s' with
                | w :: ws => (c :: w) :: ws
                | [] => [[c]]
                end
         end
  end.

Fixpoint lstrip (s : str) : str :=
  match s with
  | [] => []
  | c :: s' => if is_space c then lstrip s' else s
  end.

Definition rstrip (s : str) : str := rev (lstrip (rev s)).

(** [s.strip()] *)
Definition strip (s : str) : str := rstrip (lstrip s).

(** [sep.join(parts)] *)
Fixpoint join (sep : str) (parts : list str) : str :=
  match parts with
  | [] => []
  | [p] => p
  | p :: ps => p ++ sep ++ join sep ps
  end.

(** [s.count(c)] for a one-character argument. *)
Fixpoint count (c : N) (s : str) : Z :=
  match s with
  | [] => 0
  | x :: s' => (if (x =? c)%N then 1 else 0) + count c s'
  end.

(** [len(s)] *)
Definition len (s : str) : Z := Z.of_nat (length s).

(** [c in s] for a one-character [c]. *)
Definition contains (c : N) (s : str) : bool := existsb (N.eqb c) s.

(** [s[i : i + k]] for [0 <= i] and [0 <= k]. *)
Definition slice (s : str) (i k : nat) : str := take k (drop i s).

(** [str.upper] maps every code point through the full uppercase mapping
    of the Unicode database, which yields one to three code points.  On the
    ASCII block the mapping is written out; outside it, the table of the
    interpreter is the parameter [upper_ext]. *)
Definition ascii_upper (c : N) : N :=
  if ((97 <=? c) && (c <=? 122))%N then (c - 32)%N else c.

Section Upper.
Variable upper_ext : N -> list N.

Definition to_upper (c : N) : list N :=
  if (c <? 128)%N then [ascii_upper c] else upper_ext c.

Definition upper (s : str) : str := flat_map to_upper s.
End Upper.

(** The uppercase mapping of the Latin-1 Supplement block (U+0080 to
    U+00FF), as a table to run the programs on inputs of that block:
    U+00B5 maps to U+039C, U+00DF to "SS", U+00FF to U+0178, the other
    lowercase letters to the letter 32 places before; code points above
    the block are left alone by this table. *)
Definition latin1_upper (c : N) : list N :=
  if (c =? 181)%N then [924%N]
  else if (c =? 223)%N then [83%N; 83%N]
  else if (c =? 255)%N then [376%N]
  else if ((224 <=? c) && (c <=? 254) && negb (c =? 247))%N then [(c - 32)%N]
  else [c].

End PyStr.

Import PyStr.

(** ** Python floats *)

Module PyFloat.
Local Open Scope Z_scope.

Definition float : Type := spec_float.

(** The nearest integer to [p / q] for [0 < q], ties to the even one. *)
Definition round_ne (p q : Z) : Z :=
  let f := p / q in
  match 2 * (p mod q) ?= q with
  | Lt => f
  | Gt => f + 1
  | Eq => if Z.even f then f else f + 1
  end.

(** [floor (log2 (p / q))] for [0 < p] and [0 < q]. *)
Definition ilog2_ratio (p q : Z) : Z :=
  let d := Z.log2 p - Z.log2 q in
  if p * 2 ^ Z.max 0 (- d) <? q * 2 ^ Z.max 0 d then d - 1 else d.

(** The binary64 number nearest to [p / q] for [0 < q], ties to even: the
    mantissa has 53 bits, the least exponent is -1074, and a result of
    2^1024 or more is out of range ([None]). *)
Definition of_ratio (p q : Z) : option float :=
  if p =? 0 then Some (S754_zero false)
  else
    let s := p <? 0 in
    let a := Z.abs p in
    let e := Z.max (ilog2_ratio a q - 52) (-1074) in
    let m := round_ne (a * 2 ^ Z.max 0 (- e)) (q * 2 ^ Z.max 0 e) in
    let '(m, e) := if m =? 2 ^ 53 then (2 ^ 52, e + 1) else (m, e) in
    if m =? 0 then Some (S754_zero s)
    else if 971 <? e then None
    else Some (S754_finite s (Z.to_pos m) e).

(** [a / b] on two [int]s: the correctly rounded quotient. *)
Definition true_div (a b : Z) : result float :=
  if b =? 0 then Raise ZeroDivisionError
  else if a =? 0 then Ok (S754_zero (b <? 0))
  else match of_ratio (a * Z.sgn b) (Z.abs b) with
       | Some r => Ok r
       | None => Raise OverflowError
       end.

(** [float(n)] for an [int]. *)
Definition of_Z (n : Z) : result float :=
  match of_ratio n 1 with
  | Some r => Ok r
  | None => Raise OverflowError
  end.

(** [x * y] on floats: IEEE 754 multiplication. *)
Definition mul (x y : float) : float := SFmul 53 1024 x y.

(** [round(x, ndigits)] on a float, as [float.__round__] computes it: the
    exact binary value of [x] is rounded to [ndigits] decimal places, ties
    to the even digit, and the decimal obtained is converted back to the
    nearest float. *)
Definition round (x : float) (ndigits : Z) : result float :=
  match x with
  | S754_finite s m e =>
    if 323 <? ndigits then Ok x
    else if ndigits <? -308 then Ok (S754_zero s)
    else
      let i := round_ne (Z.pos m * 2 ^ Z.max 0 e * 10 ^ Z.max 0 ndigits)
                        (2 ^ Z.max 0 (- e) * 10 ^ Z.max 0 (- ndigits)) in
      if i =? 0 then Ok (S754_zero s)
      else match of_ratio ((if s then - i else i) * 10 ^ Z.max 0 (- ndigits))
                          (10 ^ Z.max 0 ndigits) with
           | Some r => Ok r
           | None => Raise OverflowError
           end
  | _ => Ok x
  end.

(** The float a decimal literal [p / 10^d] denotes. *)
Definition decimal (p : Z) (d : Z) : float :=
  match of_ratio p (10 ^ d) with
  | Some r => r
  | None => S754_infinity (p <? 0)
  end.

(** [x == y] on floats. *)
Definition eqb (x y : float) : bool := SFeqb x y.

(** [x >= y] on floats. *)
Definition geb (x y : float) : bool := SFleb y x.

End PyFloat.

(** ** at_content.py *)

Module at_content.
Section WithCaseTable.
Variable upper_ext : N -> list N.

Definition get_at_content (dna : str) (sig_figs : Z) : result PyFloat.float :=
  let dna := upper upper_ext dna in
  let length := len dna in
  let a := count 65 dna in
  let t := count 84 dna in
  at_content ← PyFloat.true_div (a + t) length;
  PyFloat.round at_content sig_figs.
End WithCaseTable.
End at_content.

(** ** Console output *)

(** A printed line is text, except that the decimal rendering of a float
    ([repr]) is left to the interpreter: the float itself stands in the
    line. *)
Inductive frag : Type :=
| Txt (s : str)
| Flt (x : PyFloat.float).

Definition line : Type := list frag.

Fixpoint merge (l : line) : line :=
  match l with
  | [] => []
  | Flt x :: r => Flt x :: merge r
  | Txt a :: r =>
    match merge r with
    | Txt b :: r' => Txt (a ++ b) :: r'
    | r' => Txt a :: r'
    end
  end.

(** A computation that prints: the lines written so far and how it ended. *)
Record io (A : Type) : Type := IO { written : list line; outcome : result A }.
Arguments IO {A} written outcome.
Arguments written {A} _.
Arguments outcome {A} _.

#[global] Instance io_ret : MRet io := fun _ a => IO [] (Ok a).
#[global] Instance io_bind : MBind io := fun _ _ k m =>
  match outcome m with
  | Ok a => IO (written m ++ written (k a)) (outcome (k a))
  | Raise e => IO (written m) (Raise e)
  end.

Definition lift {A} (r : result A) : io A := IO [] r.

Fixpoint spaced (args : list line) : line :=
  match args with
  | [] => []
  | [a] => a
  | a :: r => a ++ Txt [32%N] :: spaced r
  end.

(** [print(arg1, ..., argn)]: the arguments separated by one space. *)
Definition print (args : list line) : io unit :=
  IO [merge (spaced args)] (Ok tt).

(** [try: body except ValueError as e: handler(str(e))] *)
Definition except_ValueError {A} (body : io A) (handler : str -> io A) : io A :=
  match outcome body with
  | Raise (ValueError msg) =>
    IO (written body ++ written (handler msg)) (outcome (handler msg))
  | _ => body
  end.

(** ** base_freq.py *)

Module base_freq.

(** What [open] finds at a path. *)
Inductive file_state : Type :=
| Missing
| Unreadable (reason : str)
| Content (text : str).

Definition read_file (file : file_state) (path : str) : result str :=
  match file with
  | Missing => Raise (FileNotFoundError path)
  | Unreadable reason => Raise (IOError reason)
  | Content text => Ok text
  end.

Definition msg_not_fasta : str :=
  u "Error: El archivo no parece estar en formato FASTA.".
Definition msg_empty_fasta : str :=
  u "Error: FASTA vacío o sin secuencia válida.".
Definition msg_empty_sequence : str :=
  u "Error: la secuencia está vacía.".
Definition msg_no_valid_bases : str :=
  u "Error: la secuencia no contiene bases válidas (A,T,G,C).".

Definition validate_is_fasta (content : str) : result unit :=
  if negb (contains 62 content) then Raise (ValueError msg_not_fasta)
  else
    let partes := split 62 content in
    if (length partes <? 2)%nat then Raise (ValueError msg_empty_fasta)
    else Ok tt.

Definition parse_single_fasta (content : str) : result (str * str) :=
  let partes := split 62 content in
  match partes !! 1%nat with
  | None => Raise IndexError
  | Some parte =>
    let bloque := split 10 (strip parte) in
    let header := hd [] bloque in
    let seq_raw := strip (join [] (tl bloque)) in
    if (length seq_raw =? 0)%nat then Raise (ValueError msg_empty_sequence)
    else Ok (header, seq_raw)
  end.

Definition default_valid_bases : list str :=
  [lit "A"; lit "T"; lit "G"; lit "C"].

Definition compute_base_counts (seq : str) : gmap str Z :=
  <[lit "A" := count 65 seq]>
  (<[lit "T" := count 84 seq]>
  (<[lit "G" := count 71 seq]>
  (<[lit "C" := count 67 seq]>
  (<[lit "total" := len seq]> ∅)))).

(** [counts[key]] *)
Definition getitem (counts : gmap str Z) (key : str) : result Z :=
  match counts !! key with
  | Some v => Ok v
  | None => Raise (KeyError key)
  end.

Definition percent (n total : Z) : result PyFloat.float :=
  q ← PyFloat.true_div n total;
  PyFloat.round (PyFloat.mul q (PyFloat.decimal 100 0)) 2.

Definition print_base (name : string) (n total : Z) : io unit :=
  p ← lift (percent n total);
  print [[Txt (lit name)]; [Txt (of_int n)];
         [Txt (lit "("); Flt p; Txt (lit "%)")]].

Definition print_results (header : str) (counts : gmap str Z) : io unit :=
  total ← lift (getitem counts (lit "total"));
  a ← lift (getitem counts (lit "A"));
  t ← lift (getitem counts (lit "T"));
  g ← lift (getitem counts (lit "G"));
  c ← lift (getitem counts (lit "C"));
  print [[Txt (lit "Encabezado:")]; [Txt header]];;
  print [[Txt (u "Longitud secuencia válida:")]; [Txt (of_int total)]];;
  print [[Txt (lit "Frecuencias:")]];;
  print_base "A:" a total;;
  print_base "T:" t total;;
  print_base "G:" g total;;
  print_base "C:" c total.

Definition aviso (ch : N) (header : str) : line :=
  [Txt (u "Aviso: caracter inválido '" ++ [ch]
        ++ lit "' ignorado en la secuencia '" ++ header ++ lit "'")].

Section WithCaseTable.
Variable upper_ext : N -> list N.

Definition clean_sequence (seq : str) (valid_bases : list str)
  : str * list N :=
  let seq_upper := upper upper_ext seq in
  fold_left
    (fun '(seq_clean, invalid_chars) base =>
       if bool_decide ([base] ∈ valid_bases)
       then (seq_clean ++ [base], invalid_chars)
       else (seq_clean, invalid_chars ++ [base]))
    seq_upper ([], []).

Definition main (ruta : str) (file : file_state) : io Z :=
  match read_file file ruta with
  | Raise (FileNotFoundError _) =>
    print [[Txt (lit "Error: el archivo no existe:")]; [Txt ruta]];;
    mret 1%Z
  | Raise (IOError e) =>
    print [[Txt (lit "Error al leer el archivo:")]; [Txt e]];;
    mret 1%Z
  | Raise e => lift (Raise e)
  | Ok contenido =>
    except_ValueError
      (lift (validate_is_fasta contenido);;
       '(header, seq_raw) ← lift (parse_single_fasta contenido);
       let '(seq_clean, invalid_chars) :=
         clean_sequence seq_raw default_valid_bases in
       IO (map (fun ch => aviso ch header) invalid_chars) (Ok tt);;
       if (length seq_clean =? 0)%nat
       then print [[Txt msg_no_valid_bases]];; mret 1%Z
       else
         let counts := compute_base_counts seq_clean in
         print_results header counts;;
         mret 0%Z)
      (fun msg => print [[Txt msg]];; mret 1%Z)
  end.
End WithCaseTable.

End base_freq.

(** ** gene_expression.py *)

Module gene_expression.

(** One row of the data frame; the [expression] column holds floats after
    [load_expression_table]. *)
Record row : Type := Row { gene : str; expression : PyFloat.float }.

(** [a <= b] on [str]: lexicographic on code points. *)
Fixpoint str_leb (a b : str) : bool :=
  match a, b with
  | [], _ => true
  | _ :: _, [] => false
  | x :: a', y :: b' =>
    if (x <? y)%N then true
    else if (y <? x)%N then false
    else str_leb a' b'
  end.

Definition gene_le (r1 r2 : row) : Prop := str_leb (gene r1) (gene r2) = true.

#[global] Instance gene_le_dec (r1 r2 : row) : Decision (gene_le r1 r2).
Proof. unfold gene_le. apply _. Defined.

(** [df.sort_values("gene")]: ascending by the gene column.  The order
    pandas gives to rows of equal gene is not fixed by its default sort;
    the merge sort here keeps them in table order. *)
Definition sort_values_gene (df : list row) : list row :=
  merge_sort gene_le df.

Definition filter_gene (df : list row) (threshold : PyFloat.float) : list row :=
  let filtered :=
    List.filter (fun r => PyFloat.geb (expression r) threshold) df in
  sort_values_gene filtered.

(** [main] after the arguments are parsed and the table is loaded. *)
Definition main (df : list row) (threshold : PyFloat.float) : io unit :=
  let filtered := filter_gene df threshold in
  match filtered with
  | [] => print [[Txt (lit "No se encontraron genes por encima del threshold.")]]
  | _ =>
    print [[Txt (lit "Genes filtrados:")]];;
    IO (map (fun r => [Txt (gene r)]) filtered) (Ok tt)
  end.

End gene_expression.

(** ** k_mers.py *)

Module k_mers.

Definition msg_null : str := lit "La secuencia no puede ser nula".
Definition msg_empty : str :=
  u "La secuencia está vacía después de eliminar espacios".
Definition msg_invalid (listing : str) : str :=
  u "La secuencia contiene caracteres inválidos: " ++ listing
    ++ lit ". " ++ lit "Solo se permiten A, T, C, G.".
Definition msg_k_positive : str := lit "k debe ser un entero positivo".
Definition msg_k_too_large : str :=
  lit "k no puede ser mayor que la longitud de la secuencia".

(** [sorted(s)] on a set of one-character strings. *)
Definition sorted (s : gset N) : list str :=
  map (fun c => [c]) (merge_sort N.le (elements s)).

Section WithCaseTable.
Variable upper_ext : N -> list N.

(** The argument is [None] for Python's [None]. *)
Definition validate_sequence (seq : option str) : result str :=
  match seq with
  | None => Raise (ValueError msg_null)
  | Some seq =>
    let normalized := upper upper_ext (join [] (split_ws seq)) in
    if (length normalized =? 0)%nat then Raise (ValueError msg_empty)
    else
      let allowed : gset N := list_to_set (lit "ATCG") in
      let invalid : gset N := list_to_set normalized ∖ allowed in
      if bool_decide (invalid ≠ ∅)
      then Raise (ValueError (msg_invalid (join (lit ",") (sorted invalid))))
      else Ok normalized
  end.
End WithCaseTable.

Definition count_kmers (seq : str) (k : Z) : result (gmap str Z) :=
  if (k <=? 0)%Z then Raise (ValueError msg_k_positive)
  else if (len seq <? k)%Z then Raise (ValueError msg_k_too_large)
  else
    Ok (fold_left
          (fun (counts : gmap str Z) i =>
             let kmer := slice seq i (Z.to_nat k) in
             <[kmer := (default 0 (counts !! kmer) + 1)%Z]> counts)
          (List.seq 0 (Z.to_nat (len seq - k + 1)))
          ∅).

End k_mers.

(** ** rps.py *)

Module rps.

Definition VALID_CHOICES : list str :=
  [lit "rock"; lit "paper"; lit "scissors"].

Definition determine_result (user cpu : str) : str :=
  if bool_decide (user = cpu) then lit "draw"
  else
    let wins : gmap str str :=
      <[lit "rock" := lit "scissors"]>
      (<[lit "scissors" := lit "paper"]>
      (<[lit "paper" := lit "rock"]> ∅)) in
    if bool_decide (wins !! user = Some cpu) then lit "win"
    else lit "lose".

Definition msg_invalid_choice (user_choice : str) : str :=
  u "Opción inválida: " ++ user_choice.

(** [random.choice(seq)]: the element at the index the generator draws,
    [draw] being any number, reduced to the range of the list. *)
Definition random_choice (draw : nat) (choices : list str) : result str :=
  match choices !! (draw mod length choices)%nat with
  | Some c => Ok c
  | None => Raise IndexError
  end.

Definition play (draw : nat) (user_choice : str) : result (str * str) :=
  if negb (bool_decide (user_choice ∈ VALID_CHOICES))
  then Raise (ValueError (msg_invalid_choice user_choice))
  else
    cpu_choice ← random_choice draw VALID_CHOICES;
    let result := determine_result user_choice cpu_choice in
    Ok (cpu_choice, result).

End rps.

(** ** k_mers.py: the command line *)

Module k_mers_cli.
Import k_mers.

(** The value of [--sort]. *)
Inductive sort_choice : Type := by_count | by_kmer.

(** How [main] ends: with the lines it printed, in [parser.error], which
    reports the message as a usage error and exits, or by an exception it
    does not catch. *)
Inductive outcome : Type :=
| Printed (lines : list line)
| ParserError (msg : str)
| Uncaught (e : exn).

(** The key [(-kv[1], kv[0])] compared as Python compares tuples. *)
Definition count_key_le (kv1 kv2 : str * Z) : Prop :=
  (- kv1.2 < - kv2.2)%Z
  \/ (- kv1.2 = - kv2.2 /\ gene_expression.str_leb kv1.1 kv2.1 = true)%Z.

(** The key [kv[0]]. *)
Definition kmer_key_le (kv1 kv2 : str * Z) : Prop :=
  gene_expression.str_leb kv1.1 kv2.1 = true.

#[global] Instance count_key_le_dec kv1 kv2 : Decision (count_key_le kv1 kv2).
Proof. unfold count_key_le. apply _. Defined.

#[global] Instance kmer_key_le_dec kv1 kv2 : Decision (kmer_key_le kv1 kv2).
Proof. unfold kmer_key_le. apply _. Defined.

(** [sorted(counts.items(), key=...)].  The keys of distinct items differ,
    so the sorted list does not depend on the order in which the dict
    enumerates its items. *)
Definition sorted_items (sort : sort_choice) (counts : gmap str Z)
  : list (str * Z) :=
  match sort with
  | by_count => merge_sort count_key_le (map_to_list counts)
  | by_kmer => merge_sort kmer_key_le (map_to_list counts)
  end.

(** The line [f"{kmer}\t{cnt}"]. *)
Definition item_line (kv : str * Z) : line :=
  [Txt (kv.1 ++ [9%N] ++ of_int kv.2)].

Section WithCaseTable.
Variable upper_ext : N -> list N.

(** [main] after the arguments are parsed: [sequence] is the positional
    argument, [kmer_size] the value of [-k], [sort] that of [--sort]. *)
Definition main (sequence : str) (kmer_size : Z) (sort : sort_choice)
  : outcome :=
  match validate_sequence upper_ext (Some sequence) with
  | Raise (ValueError msg) => ParserError msg
  | Raise e => Uncaught e
  | Ok seq =>
    match count_kmers seq kmer_size with
    | Raise (ValueError msg) => ParserError msg
    | Raise e => Uncaught e
    | Ok counts => Printed (map item_line (sorted_items sort counts))
    end
  end.
End WithCaseTable.

End k_mers_cli.

(** ** rps.py: the game loop *)

Module rps_cli.
Import rps.

(** What the terminal sees: a printed line, or a call of [input] with its
    prompt. *)
Inductive event : Type :=
| Print (text : str)
| Input (prompt : str).

(** How [main] ends: by leaving the loop, by [EOFError] when [input] finds
    no more lines, or by another exception. *)
Inductive ending : Type :=
| Finished
| EndOfInput
| Uncaught (e : exn).

Definition banner : list event :=
  [ Print (u "🎮 Rock, Paper, Scissors Game 🎮");
    Print (lit "Escribe rock, paper o scissors.");
    Print (lit "Presiona ENTER sin escribir nada para salir.");
    Print (repeat 45%N 40) ].

Definition prompt : str := u "Tu elección (rock/paper/scissors) > ".
Definition farewell : str := u "¡Gracias por jugar! Hasta la próxima 👋".
Definition msg_invalid_input : str :=
  u "Entrada inválida. Escribe rock, paper o scissors.".
Definition celebration : str := u "🎉✨🚀 ¡Ganaste! 🎉✨🚀".

Section WithRuntime.
(** [str.lower], which depends on the whole string, is the interpreter's;
    [draws n] is what the generator draws in the [n]-th round played. *)
Variable lower : str -> str.
Variable draws : nat -> nat.

(** The [while True] loop on the lines that [input] will return, [played]
    rounds having been played. *)
Fixpoint loop (lines : list str) (played : nat) : list event * ending :=
  match lines with
  | [] => ([Input prompt], EndOfInput)
  | l :: rest =>
    let user_input := lower (strip l) in
    if bool_decide (user_input = [])
    then ([Input prompt; Print farewell], Finished)
    else if negb (bool_decide (user_input ∈ VALID_CHOICES))
    then
      let '(events, e) := loop rest played in
      (Input prompt :: Print msg_invalid_input :: events, e)
    else
      match play (draws played) user_input with
      | Raise e => ([Input prompt], Uncaught e)
      | Ok (cpu_choice, result) =>
        let '(events, e) := loop rest (S played) in
        (Input prompt
           :: Print (lit "CPU: " ++ cpu_choice)
           :: Print (lit "Resultado: " ++ result)
           :: (if bool_decide (result = lit "win")
               then [Print celebration] else [])
           ++ events, e)
      end
  end.

Definition main (lines : list str) : list event * ending :=
  let '(events, e) := loop lines 0 in
  (banner ++ events, e).
End WithRuntime.

(** [str.lower] on ASCII strings, to run the loop on such inputs. *)
Definition ascii_lower (s : str) : str :=
  map (fun c => if ((65 <=? c) && (c <=? 90))%N then (c + 32)%N else c) s.

End rps_cli.

(** * Properties *)

(** ** Strings *)

Module PyStrFacts.

Example lit_ATGC : lit "ATGC" = [65; 84; 71; 67]%N.
Proof. reflexivity. Qed.

Example u_vacio : u "vacío" = [118; 97; 99; 237; 111]%N.
Proof. reflexivity. Qed.

Example of_int_examples :
  of_int 8 = lit "8" /\ of_int 200000 = lit "200000" /\ of_int (-3) = lit "-3".
Proof. repeat split; reflexivity. Qed.

Example split_marker :
  split 62 (lit ">h1" ++ [10%N] ++ lit "ATG" ++ [10%N] ++ lit ">h2")
  = [[]; lit "h1" ++ [10%N] ++ lit "ATG" ++ [10%N]; lit "h2"].
Proof. reflexivity. Qed.

Example split_ws_words :
  split_ws (lit " a t  cg ") = [lit "a"; lit "t"; lit "cg"].
Proof. reflexivity. Qed.

Example strip_both_ends : strip (lit "  a b " ++ [10%N]) = lit "a b".
Proof. reflexivity. Qed.

Example upper_eszett : upper latin1_upper (u "aß") = lit "ASS".
Proof. reflexivity. Qed.

Lemma split_nonempty sep s : split sep s <> [].
Proof.
  destruct s as [|c s]; simpl; [discriminate|].
  destruct (c =? sep)%N; [discriminate|].
  destruct (split sep s); discriminate.
Qed.

(** Splitting at a separator that occurs gives at least two parts. *)
Lemma split_contains sep s :
  contains sep s = true -> (2 <= length (split sep s))%nat.
Proof.
  induction s as [|c s IH]; simpl; [discriminate|].
  rewrite (N.eqb_sym sep c).
  destruct (c =? sep)%N eqn:E; simpl.
  - intros _. pose proof (split_nonempty sep s).
    destruct (split sep s); [congruence | simpl; lia].
  - intros H. specialize (IH H).
    destruct (split sep s); simpl in *; lia.
Qed.

Lemma split_ws_head c s :
  is_space c = false -> split_ws (c :: s) <> [].
Proof.
  intros H. simpl. rewrite H.
  destruct s as [|c' s]; [discriminate|].
  destruct (is_space c'); [discriminate|].
  destruct (split_ws (c' :: s)); discriminate.
Qed.

(** Joining the words of [s.split()] removes exactly the whitespace. *)
Lemma join_split_ws s :
  join [] (split_ws s) = List.filter (fun c => negb (is_space c)) s.
Proof.
  assert (J : forall w ws, join [] (w :: ws) = w ++ join [] ws).
  { intros w [|w' ws]; simpl; [by rewrite app_nil_r | done]. }
  induction s as [|c s IH]; [done|].
  cbn [List.filter]. destruct (is_space c) eqn:Ec.
  - simpl. rewrite Ec. exact IH.
  - cbn [negb]. destruct s as [|c' s].
    + simpl. by rewrite Ec.
    + assert (E : split_ws (c :: c' :: s)
                  = if is_space c' then [c] :: split_ws (c' :: s)
                    else match split_ws (c' :: s) with
                         | w :: ws => (c :: w) :: ws
                         | [] => [[c]]
                         end).
      { change (split_ws (c :: c' :: s))
          with (if is_space c then split_ws (c' :: s)
                else if is_space c' then [c] :: split_ws (c' :: s)
                else match split_ws (c' :: s) with
                     | w :: ws => (c :: w) :: ws
                     | [] => [[c]]
                     end).
        by rewrite Ec. }
      rewrite E. destruct (is_space c') eqn:Ec'.
      * rewrite J, IH. reflexivity.
      * pose proof (split_ws_head c' s Ec') as Hne.
        destruct (split_ws (c' :: s)) as [|w ws] eqn:Ew; [congruence|].
        rewrite J in IH. rewrite J, <- IH. reflexivity.
Qed.

Lemma count_nonneg c s : (0 <= count c s)%Z.
Proof. induction s as [|x s IH]; simpl; [lia|]. destruct (x =? c)%N; lia. Qed.

Lemma to_upper_ascii upper_ext c :
  (c < 128)%N -> to_upper upper_ext c = [ascii_upper c].
Proof. intros H. unfold to_upper. apply N.ltb_lt in H. by rewrite H. Qed.

Lemma upper_app upper_ext s t :
  upper upper_ext (s ++ t) = upper upper_ext s ++ upper upper_ext t.
Proof. unfold upper. by rewrite flat_map_app. Qed.

(** On ASCII input, [upper] is character by character. *)
Lemma upper_ascii upper_ext s :
  Forall (fun c => (c < 128)%N) s -> upper upper_ext s = map ascii_upper s.
Proof.
  induction 1 as [|c s Hc _ IH]; [done|].
  unfold upper in *. simpl. rewrite IH, to_upper_ascii; done.
Qed.

End PyStrFacts.

(** ** base_freq.py *)

Module base_freq_spec.
Import base_freq PyStrFacts.

(** A cleaned sequence: every symbol is one of A, T, G, C. *)
Definition is_base (c : N) : bool :=
  ((c =? 65) || (c =? 84) || (c =? 71) || (c =? 67))%N.

Definition cleaned (seq : str) : Prop := forallb is_base seq = true.

Lemma count_bases seq :
  cleaned seq ->
  (count 65 seq + count 84 seq + count 71 seq + count 67 seq = len seq)%Z.
Proof.
  unfold cleaned, len. induction seq as [|x seq IH]; [done|].
  cbn [forallb count length]. intros [Hx Hs]%andb_prop.
  specialize (IH Hs). rewrite Nat2Z.inj_succ.
  unfold is_base in Hx.
  destruct (x =? 65)%N eqn:EA; [apply N.eqb_eq in EA; subst x; simpl; lia|].
  destruct (x =? 84)%N eqn:ET; [apply N.eqb_eq in ET; subst x; simpl; lia|].
  destruct (x =? 71)%N eqn:EG; [apply N.eqb_eq in EG; subst x; simpl; lia|].
  destruct (x =? 67)%N eqn:EC; [apply N.eqb_eq in EC; subst x; simpl; lia|].
  discriminate.
Qed.

Lemma compute_base_counts_lookup seq :
  compute_base_counts seq !! lit "A" = Some (count 65 seq)
  /\ compute_base_counts seq !! lit "T" = Some (count 84 seq)
  /\ compute_base_counts seq !! lit "G" = Some (count 71 seq)
  /\ compute_base_counts seq !! lit "C" = Some (count 67 seq)
  /\ compute_base_counts seq !! lit "total" = Some (len seq).
Proof.
  unfold compute_base_counts.
  change (lit "A") with [65%N]; change (lit "T") with [84%N];
  change (lit "G") with [71%N]; change (lit "C") with [67%N];
  change (lit "total") with [116%N; 111%N; 116%N; 97%N; 108%N].
  repeat split; by simplify_map_eq.
Qed.

(** C1. On a cleaned sequence (symbols A, T, G, C only) the mapping that
    [compute_base_counts] returns holds the five keys, its four base counts
    add up to its total, and the total is the length of the sequence. *)
Theorem compute_base_counts_total (seq : str) (Hclean : cleaned seq) :
  exists a t g c total : Z,
    compute_base_counts seq !! lit "A" = Some a
    /\ compute_base_counts seq !! lit "T" = Some t
    /\ compute_base_counts seq !! lit "G" = Some g
    /\ compute_base_counts seq !! lit "C" = Some c
    /\ compute_base_counts seq !! lit "total" = Some total
    /\ (0 <= a /\ 0 <= t /\ 0 <= g /\ 0 <= c)%Z
    /\ (a + t + g + c = total)%Z
    /\ total = len seq.
Proof.
  destruct (compute_base_counts_lookup seq) as (HA & HT & HG & HC & Htot).
  exists (count 65 seq), (count 84 seq), (count 71 seq), (count 67 seq), (len seq).
  repeat split; try assumption; try apply count_nonneg.
  by apply count_bases.
Qed.

Lemma compute_base_counts_total_witness :
  cleaned (lit "AATG")
  /\ exists a t g c total : Z,
    compute_base_counts (lit "AATG") !! lit "A" = Some a
    /\ compute_base_counts (lit "AATG") !! lit "T" = Some t
    /\ compute_base_counts (lit "AATG") !! lit "G" = Some g
    /\ compute_base_counts (lit "AATG") !! lit "C" = Some c
    /\ compute_base_counts (lit "AATG") !! lit "total" = Some total
    /\ (0 <= a /\ 0 <= t /\ 0 <= g /\ 0 <= c)%Z
    /\ (a + t + g + c = total)%Z
    /\ total = len (lit "AATG").
Proof.
  split; [reflexivity|].
  apply (compute_base_counts_total (lit "AATG")). reflexivity.
Defined.

Section WithCaseTable.
Variable upper_ext : N -> list N.

Definition valid_in (valid_bases : list str) (base : N) : bool :=
  bool_decide ([base] ∈ valid_bases).

Lemma clean_loop valid_bases l acc_clean acc_invalid :
  fold_left
    (fun '(seq_clean, invalid_chars) base =>
       if bool_decide ([base] ∈ valid_bases)
       then (seq_clean ++ [base], invalid_chars)
       else (seq_clean, invalid_chars ++ [base]))
    l (acc_clean, acc_invalid)
  = (acc_clean ++ List.filter (valid_in valid_bases) l,
     acc_invalid ++ List.filter (fun b => negb (valid_in valid_bases b)) l).
Proof.
  revert acc_clean acc_invalid.
  induction l as [|b l IH]; intros; simpl; [by rewrite !app_nil_r|].
  change (bool_decide ([b] ∈ valid_bases)) with (valid_in valid_bases b).
  destruct (valid_in valid_bases b); simpl;
    rewrite IH, <- app_assoc; reflexivity.
Qed.

Lemma clean_sequence_filter seq valid_bases :
  clean_sequence upper_ext seq valid_bases
  = (List.filter (valid_in valid_bases) (upper upper_ext seq),
     List.filter (fun b => negb (valid_in valid_bases b))
                 (upper upper_ext seq)).
Proof. unfold clean_sequence. by rewrite clean_loop. Qed.

Lemma filter_split_length {A} (p : A -> bool) (l : list A) :
  (length (List.filter p l) + length (List.filter (fun x => negb (p x)) l)
   = length l)%nat.
Proof.
  induction l as [|x l IH]; [done|]. simpl. destruct (p x); simpl; lia.
Qed.

(** What [main] keeps of a raw sequence is a cleaned sequence. *)
Lemma clean_sequence_cleaned seq :
  cleaned (clean_sequence upper_ext seq default_valid_bases).1.
Proof.
  rewrite clean_sequence_filter. cbn [fst]. unfold cleaned.
  apply forallb_forall. intros c [_ Hc]%filter_In.
  unfold valid_in in Hc. apply bool_decide_eq_true in Hc.
  unfold default_valid_bases in Hc.
  rewrite !elem_of_cons, elem_of_nil in Hc.
  destruct Hc as [H|[H|[H|[H|[]]]]]; by inversion H.
Qed.
End WithCaseTable.

Lemma upper_length upper_ext seq :
  Forall (fun c => length (to_upper upper_ext c) = 1%nat) seq ->
  length (upper upper_ext seq) = length seq.
Proof.
  unfold upper. induction 1 as [|c l Hc _ IH]; [done|].
  simpl. rewrite length_app, Hc, IH. reflexivity.
Qed.

(** C9, amended.  [clean_sequence] partitions the uppercased input: the
    cleaned sequence is the subsequence of its valid symbols and the list
    of invalid characters the subsequence of the others, both in the
    original order, so their lengths add up to the length of the uppercased
    input; that is the length of the input itself whenever every character
    has a one-character uppercase form, as every ASCII character has. *)
Theorem clean_sequence_partition
    (upper_ext : N -> list N) (seq : str) (valid_bases : list str) :
  let seq_upper := upper upper_ext seq in
  let r := clean_sequence upper_ext seq valid_bases in
  r.1 = List.filter (valid_in valid_bases) seq_upper
  /\ r.2 = List.filter (fun b => negb (valid_in valid_bases b)) seq_upper
  /\ (length r.1 + length r.2 = length seq_upper)%nat
  /\ (Forall (fun c => length (to_upper upper_ext c) = 1%nat) seq ->
      (length r.1 + length r.2 = length seq)%nat)
  /\ (Forall (fun c => (c < 128)%N) seq ->
      (length r.1 + length r.2 = length seq)%nat).
Proof.
  intros seq_upper r. subst r seq_upper.
  rewrite clean_sequence_filter. cbn [fst snd].
  pose proof (filter_split_length (valid_in valid_bases)
                (upper upper_ext seq)) as L.
  pose proof (upper_length upper_ext seq) as U.
  split; [reflexivity|]. split; [reflexivity|]. split; [exact L|].
  split; intros H; rewrite L; apply U; [exact H|].
  eapply Forall_impl; [exact H|]. intros c Hc. simpl in Hc.
  by rewrite to_upper_ascii.
Qed.

(** C9 as stated fails on a character whose uppercase form is longer: the
    one-character input U+00DF, whose uppercase is "SS", gives no cleaned
    symbol and two invalid characters. *)
Lemma clean_sequence_length_eszett :
  clean_sequence latin1_upper [223%N] default_valid_bases = ([], lit "SS")
  /\ (length (clean_sequence latin1_upper [223%N] default_valid_bases).1
      + length (clean_sequence latin1_upper [223%N] default_valid_bases).2
      <> length [223%N])%nat.
Proof. split; [reflexivity | vm_compute; discriminate]. Qed.

(** The test of the repository for [clean_sequence]. *)
Example clean_sequence_test upper_ext :
  clean_sequence upper_ext (lit "aTgNxyz " ++ [10%N]) default_valid_bases
  = (lit "ATG", lit "NXYZ " ++ [10%N]).
Proof. reflexivity. Qed.

(** The content of the example file: [>seq1\nATGCatgNxyz\n]. *)
Definition seq1_fasta : str :=
  lit ">seq1" ++ [10%N] ++ lit "ATGCatgNxyz" ++ [10%N].

(** C2, amended.  On the file content [>seq1\nATGCatgNxyz\n] the counter
    prints advisories for exactly N, X, Y, Z in that order, then the
    report, whose valid-sequence length is 7, and exits with code 0. *)
Theorem main_seq1_output (upper_ext : N -> list N) (ruta : str) :
  main upper_ext ruta (Content seq1_fasta)
  = IO [ aviso 78 (lit "seq1"); aviso 88 (lit "seq1");
         aviso 89 (lit "seq1"); aviso 90 (lit "seq1");
         [Txt (lit "Encabezado: seq1")];
         [Txt (u "Longitud secuencia válida: 7")];
         [Txt (lit "Frecuencias:")];
         [Txt (lit "A: 2 ("); Flt (PyFloat.decimal 2857 2); Txt (lit "%)")];
         [Txt (lit "T: 2 ("); Flt (PyFloat.decimal 2857 2); Txt (lit "%)")];
         [Txt (lit "G: 2 ("); Flt (PyFloat.decimal 2857 2); Txt (lit "%)")];
         [Txt (lit "C: 1 ("); Flt (PyFloat.decimal 1429 2); Txt (lit "%)")] ]
       (Ok 0%Z).
Proof. vm_compute. reflexivity. Qed.

(** C2 as stated fails: the report of that file has no line giving a
    valid-sequence length of 8. *)
Lemma main_seq1_length_not_8 :
  ~ In [Txt (u "Longitud secuencia válida: 8")]
       (written (main latin1_upper (lit "seq1.fasta") (Content seq1_fasta))).
Proof.
  vm_compute.
  intros H. repeat (destruct H as [H|H]; [discriminate H|]). exact H.
Qed.

(** C3.  Once the marker occurs in the content, splitting at it gives at
    least two parts, so [validate_is_fasta] has only two outcomes and the
    "empty FASTA" failure is not among them. *)
Theorem validate_is_fasta_never_empty (content : str) :
  validate_is_fasta content
  = (if contains 62 content then Ok tt else Raise (ValueError msg_not_fasta))
  /\ validate_is_fasta content <> Raise (ValueError msg_empty_fasta).
Proof.
  assert (E : validate_is_fasta content
              = if contains 62 content then Ok tt
                else Raise (ValueError msg_not_fasta)).
  { unfold validate_is_fasta. destruct (contains 62 content) eqn:Hc; [|done].
    cbn [negb]. apply split_contains in Hc.
    destruct (length (split 62 content) <? 2)%nat eqn:Hl; [|done].
    apply Nat.ltb_lt in Hl. lia. }
  split; [exact E|]. rewrite E.
  destruct (contains 62 content); [discriminate|].
  intros H. assert (Hm : msg_not_fasta = msg_empty_fasta) by congruence.
  vm_compute in Hm. discriminate Hm.
Qed.

(** A file that holds the marker and nothing else is reported as an empty
    sequence, not as an empty FASTA. *)
Example main_marker_only upper_ext ruta :
  main upper_ext ruta (Content (lit ">"))
  = IO [[Txt msg_empty_sequence]] (Ok 1%Z).
Proof. reflexivity. Qed.

Example main_not_fasta upper_ext ruta :
  main upper_ext ruta (Content (lit "NO FASTA HERE" ++ [10%N]))
  = IO [[Txt msg_not_fasta]] (Ok 1%Z).
Proof. reflexivity. Qed.

Example main_no_valid_bases upper_ext ruta :
  main upper_ext ruta (Content (lit ">s" ++ [10%N] ++ lit "NNNNxxx" ++ [10%N]))
  = IO (map (fun c => aviso c (lit "s")) (lit "NNNNXXX")
        ++ [[Txt msg_no_valid_bases]]) (Ok 1%Z).
Proof. reflexivity. Qed.

End base_freq_spec.

(** ** k_mers.py *)

Module k_mers_spec.
Import k_mers PyStrFacts.

(** The sum of the counts of a k-mer table. *)
Definition sum_counts (counts : gmap str Z) : Z :=
  map_fold (fun _ v acc => (v + acc)%Z) 0%Z counts.

Lemma sum_counts_insert (counts : gmap str Z) kmer v :
  counts !! kmer = None ->
  sum_counts (<[kmer := v]> counts) = (v + sum_counts counts)%Z.
Proof.
  intros H. unfold sum_counts. apply map_fold_insert_L; [|exact H].
  intros. lia.
Qed.

Lemma sum_counts_delete (counts : gmap str Z) kmer v :
  counts !! kmer = Some v ->
  sum_counts counts = (v + sum_counts (delete kmer counts))%Z.
Proof.
  intros H. unfold sum_counts.
  apply (map_fold_delete_L (fun (_ : str) (v acc : Z) => (v + acc)%Z));
    [|exact H].
  intros. lia.
Qed.

(** One pass of the loop body adds one to the sum. *)
Lemma sum_counts_tally (counts : gmap str Z) kmer :
  sum_counts (<[kmer := (default 0 (counts !! kmer) + 1)%Z]> counts)
  = (sum_counts counts + 1)%Z.
Proof.
  destruct (counts !! kmer) as [v|] eqn:E; cbn [default].
  - rewrite <- insert_delete_eq.
    rewrite sum_counts_insert by apply lookup_delete_eq.
    rewrite (sum_counts_delete counts kmer v E). unfold id. lia.
  - rewrite sum_counts_insert by exact E. lia.
Qed.

Lemma sum_counts_loop (seq : str) (k : nat) (idx : list nat)
    (counts : gmap str Z) :
  sum_counts
    (fold_left
       (fun (counts : gmap str Z) i =>
          let kmer := slice seq i k in
          <[kmer := (default 0 (counts !! kmer) + 1)%Z]> counts)
       idx counts)
  = (sum_counts counts + Z.of_nat (length idx))%Z.
Proof.
  revert counts. induction idx as [|i idx IH]; intros counts.
  - simpl. lia.
  - cbn [fold_left length]. rewrite IH, sum_counts_tally. lia.
Qed.

(** C4.  For a sequence and an integer [k] with [1 <= k <= len(seq)],
    [count_kmers] returns a table whose counts add up to
    [len(seq) - k + 1], and for [k = len(seq)] the table holds the
    sequence itself, once, and nothing else; for [k <= 0] or
    [k > len(seq)] it raises [ValueError].  This holds of every sequence,
    validated or not. *)
Theorem count_kmers_sum (seq : str) (k : Z) :
  ((1 <= k <= len seq)%Z ->
   exists counts : gmap str Z,
     count_kmers seq k = Ok counts
     /\ sum_counts counts = (len seq - k + 1)%Z
     /\ (k = len seq -> counts = {[ seq := 1%Z ]}))
  /\ ((k <= 0 \/ len seq < k)%Z ->
      exists msg, count_kmers seq k = Raise (ValueError msg)).
Proof.
  unfold count_kmers. split.
  - intros [Hk1 Hk2].
    destruct (k <=? 0)%Z eqn:E1; [apply Z.leb_le in E1; lia|].
    destruct (len seq <? k)%Z eqn:E2; [apply Z.ltb_lt in E2; lia|].
    eexists. split; [reflexivity|]. split.
    + rewrite sum_counts_loop, length_seq.
      unfold sum_counts. rewrite map_fold_empty. lia.
    + intros ->. replace (len seq - len seq + 1)%Z with 1%Z by lia.
      change (List.seq 0 (Z.to_nat 1)) with [0%nat]. cbn [fold_left].
      unfold slice, len. rewrite Nat2Z.id, drop_0, firstn_all.
      rewrite lookup_empty. reflexivity.
  - intros [H|H].
    + apply Z.leb_le in H. rewrite H. eauto.
    + destruct (k <=? 0)%Z; [eauto|].
      apply Z.ltb_lt in H. rewrite H. eauto.
Qed.

Lemma count_kmers_sum_witness :
  (1 <= 3 <= len (lit "ATCGATCGA"))%Z
  /\ exists counts : gmap str Z,
       count_kmers (lit "ATCGATCGA") 3 = Ok counts
       /\ sum_counts counts = (len (lit "ATCGATCGA") - 3 + 1)%Z
       /\ (3%Z = len (lit "ATCGATCGA") -> counts = {[ lit "ATCGATCGA" := 1%Z ]}).
Proof.
  assert (H : (1 <= 3 <= len (lit "ATCGATCGA"))%Z) by (vm_compute; split; discriminate).
  split; [exact H|].
  exact (proj1 (count_kmers_sum (lit "ATCGATCGA") 3) H).
Defined.

(** The tests of the repository for [count_kmers]. *)
Example count_kmers_overlapping :
  exists counts : gmap str Z,
    count_kmers (lit "ATCGATCGA") 3 = Ok counts
    /\ counts !! lit "ATC" = Some 2%Z /\ counts !! lit "TCG" = Some 2%Z
    /\ counts !! lit "CGA" = Some 2%Z /\ counts !! lit "GAT" = Some 1%Z
    /\ sum_counts counts = 7%Z.
Proof. eexists. split; [reflexivity|]. vm_compute. tauto. Qed.

Example count_kmers_identical :
  count_kmers (lit "AAAA") 2 = Ok {[ lit "AA" := 3%Z ]}.
Proof. vm_compute. reflexivity. Qed.

Example count_kmers_invalid_k :
  count_kmers (lit "ATCG") 0 = Raise (ValueError msg_k_positive)
  /\ count_kmers (lit "ATCG") (-1) = Raise (ValueError msg_k_positive)
  /\ count_kmers (lit "ATCG") 5 = Raise (ValueError msg_k_too_large).
Proof. repeat split; reflexivity. Qed.

(** The normalized input: whitespace removed, then uppercased. *)
Definition normalize (upper_ext : N -> list N) (seq : str) : str :=
  upper upper_ext (List.filter (fun c => negb (is_space c)) seq).

Definition only_ATCG (s : str) : Prop := Forall (fun c => c ∈ lit "ATCG") s.

Lemma invalid_elem (n : str) (c : N) :
  c ∈ (list_to_set n ∖ list_to_set (lit "ATCG") : gset N)
  <-> c ∈ n /\ c ∉ lit "ATCG".
Proof. rewrite elem_of_difference, !elem_of_list_to_set. reflexivity. Qed.

Lemma invalid_empty (n : str) :
  (list_to_set n ∖ list_to_set (lit "ATCG") : gset N) = ∅ <-> only_ATCG n.
Proof.
  unfold only_ATCG. rewrite Forall_forall. split.
  - intros H c Hc. destruct (decide (c ∈ lit "ATCG")) as [|Hn]; [done|].
    assert (Hin : c ∈ (list_to_set n ∖ list_to_set (lit "ATCG") : gset N))
      by (apply invalid_elem; done).
    rewrite H in Hin. by apply not_elem_of_empty in Hin.
  - intros H. apply leibniz_equiv, elem_of_equiv_empty. intros c Hc.
    apply invalid_elem in Hc as [Hc Hn]. by apply Hn, H.
Qed.

Lemma strictly_sorted (l : list N) :
  Sorted N.le l -> NoDup l -> StronglySorted N.lt l.
Proof.
  intros Hs%Sorted_StronglySorted; [|intros x y z; apply N.le_trans].
  intros Hd. induction Hs as [|x l Hs IH Hx]; [constructor|].
  apply NoDup_cons in Hd as [Hnx Hd]. constructor; [by apply IH|].
  rewrite Forall_forall in Hx. apply Forall_forall. intros y Hy.
  specialize (Hx y Hy). destruct (decide (x = y)) as [->|Hne]; [done|].
  apply N.le_neq. done.
Qed.

(** [sorted(invalid)] lists the members of the set once each, ascending. *)
Lemma sorted_listing (s : gset N) :
  exists l : list N,
    sorted s = map (fun c => [c]) l
    /\ StronglySorted N.lt l
    /\ forall c, c ∈ l <-> c ∈ s.
Proof.
  exists (merge_sort N.le (elements s)). split; [reflexivity|]. split.
  - apply strictly_sorted; [apply Sorted_merge_sort; apply _|].
    rewrite merge_sort_Permutation. apply NoDup_elements.
  - intros c. rewrite merge_sort_Permutation. apply elem_of_elements.
Qed.

Lemma filter_all_space (seq : str) :
  Forall (fun c => is_space c = true) seq ->
  List.filter (fun c => negb (is_space c)) seq = [].
Proof.
  induction 1 as [|c l Hc _ IH]; [done|]. simpl. rewrite Hc. exact IH.
Qed.

(** C8.  [validate_sequence] works on the input with all whitespace
    removed and the rest uppercased.  When nothing is left (an empty or
    all-whitespace input) it raises the "empty" error; when a symbol
    outside A/T/C/G is left it raises an error whose message lists the
    offending symbols once each, in ascending order, separated by commas;
    otherwise it returns the normalized sequence.  So it succeeds exactly
    when the normalized input is non-empty and holds only A/T/C/G. *)
Theorem validate_sequence_spec (upper_ext : N -> list N) (seq : str) :
  let normalized := normalize upper_ext seq in
  let outcome := validate_sequence upper_ext (Some seq) in
  (Forall (fun c => is_space c = true) seq -> normalized = [])
  /\ (normalized = [] -> outcome = Raise (ValueError msg_empty))
  /\ (normalized <> [] -> ~ only_ATCG normalized ->
      exists offending : list N,
        StronglySorted N.lt offending
        /\ (forall c, c ∈ offending <-> c ∈ normalized /\ c ∉ lit "ATCG")
        /\ outcome
           = Raise (ValueError
               (msg_invalid (join (lit ",") (map (fun c => [c]) offending)))))
  /\ (normalized <> [] -> only_ATCG normalized -> outcome = Ok normalized)
  /\ (forall s, outcome = Ok s
      <-> s = normalized /\ normalized <> [] /\ only_ATCG normalized).
Proof.
  intros normalized outcome.
  assert (E : outcome
    = if (length normalized =? 0)%nat then Raise (ValueError msg_empty)
      else if bool_decide
                ((list_to_set normalized ∖ list_to_set (lit "ATCG") : gset N) ≠ ∅)
           then Raise (ValueError (msg_invalid (join (lit ",")
                  (sorted (list_to_set normalized ∖ list_to_set (lit "ATCG"))))))
           else Ok normalized).
  { subst outcome normalized. unfold validate_sequence, normalize.
    rewrite join_split_ws. reflexivity. }
  assert (Hempty : normalized = [] -> outcome = Raise (ValueError msg_empty)).
  { intros Hn. rewrite E, Hn. reflexivity. }
  assert (Hbad : normalized <> [] -> ~ only_ATCG normalized ->
    exists offending : list N,
      StronglySorted N.lt offending
      /\ (forall c, c ∈ offending <-> c ∈ normalized /\ c ∉ lit "ATCG")
      /\ outcome = Raise (ValueError
           (msg_invalid (join (lit ",") (map (fun c => [c]) offending))))).
  { intros Hne Hbad. rewrite E.
    destruct normalized as [|c0 n0] eqn:En; [done|]. cbn [length Nat.eqb].
    rewrite bool_decide_eq_true_2 by (by rewrite invalid_empty).
    destruct (sorted_listing
                (list_to_set (c0 :: n0) ∖ list_to_set (lit "ATCG")))
      as (l & El & Hs & Hl).
    exists l. split; [exact Hs|]. split.
    - intros c. rewrite Hl. apply invalid_elem.
    - by rewrite El. }
  assert (Hgood : normalized <> [] -> only_ATCG normalized ->
                  outcome = Ok normalized).
  { intros Hne Hok. rewrite E.
    destruct normalized as [|c0 n0] eqn:En; [done|]. cbn [length Nat.eqb].
    rewrite bool_decide_eq_false_2; [done|].
    intros Hc. apply Hc. by apply invalid_empty. }
  split; [|split; [exact Hempty|split; [exact Hbad|split; [exact Hgood|]]]].
  - intros Hws. subst normalized. unfold normalize.
    by rewrite filter_all_space.
  - intros s. split.
    + intros Hs. destruct (decide (normalized = [])) as [Hn|Hn].
      { rewrite (Hempty Hn) in Hs. discriminate. }
      destruct (decide (only_ATCG normalized)) as [Hok|Hno].
      * rewrite (Hgood Hn Hok) in Hs. by inversion Hs.
      * destruct (Hbad Hn Hno) as (l & _ & _ & Hr).
        rewrite Hr in Hs. discriminate.
    + intros (-> & Hn & Hok). by apply Hgood.
Qed.

(** The tests of the repository for [validate_sequence], and an input
    with several offending symbols. *)
Example validate_sequence_lowercase_spaces upper_ext :
  validate_sequence upper_ext (Some (lit " a t c g ")) = Ok (lit "ATCG").
Proof. vm_compute. reflexivity. Qed.

Example validate_sequence_rejects upper_ext :
  validate_sequence upper_ext (Some (lit "ATXG"))
  = Raise (ValueError (msg_invalid (lit "X")))
  /\ validate_sequence upper_ext (Some (lit "a tzx gz Q"))
     = Raise (ValueError (msg_invalid (lit "Q,X,Z")))
  /\ validate_sequence upper_ext (Some (lit ""))
     = Raise (ValueError msg_empty)
  /\ validate_sequence upper_ext (Some (lit "  " ++ [10%N]))
     = Raise (ValueError msg_empty)
  /\ validate_sequence upper_ext None = Raise (ValueError msg_null).
Proof. repeat split; vm_compute; reflexivity. Qed.

End k_mers_spec.

(** ** rps.py *)

Module rps_spec.
Import rps.

(** The dominance table of the specification: rock beats scissors,
    scissors beats paper, paper beats rock. *)
Definition beats (a b : str) : Prop :=
  (a = lit "rock" /\ b = lit "scissors")
  \/ (a = lit "scissors" /\ b = lit "paper")
  \/ (a = lit "paper" /\ b = lit "rock").

Ltac settle_round :=
  vm_compute;
  repeat split; intros;
  repeat match goal with
         | H : _ \/ _ |- _ => destruct H
         | H : _ /\ _ |- _ => destruct H
         end;
  try discriminate; try reflexivity; auto 6.

(** C7.  On the nine pairs of choices, [determine_result] gives "draw"
    exactly for equal choices, "win" exactly when the user's choice beats
    the CPU's in the cycle, and "lose" exactly when the CPU's beats the
    user's. *)
Theorem determine_result_table (user cpu : str)
    (Huser : user ∈ VALID_CHOICES) (Hcpu : cpu ∈ VALID_CHOICES) :
  (determine_result user cpu = lit "draw" <-> user = cpu)
  /\ (determine_result user cpu = lit "win" <-> beats user cpu)
  /\ (determine_result user cpu = lit "lose" <-> beats cpu user).
Proof.
  unfold VALID_CHOICES in Huser, Hcpu.
  rewrite !elem_of_cons, elem_of_nil in Huser, Hcpu.
  unfold beats.
  destruct Huser as [->|[->|[->|[]]]]; destruct Hcpu as [->|[->|[->|[]]]];
    settle_round.
Qed.

Lemma determine_result_table_witness :
  (determine_result (lit "rock") (lit "scissors") = lit "draw"
     <-> lit "rock" = lit "scissors")
  /\ (determine_result (lit "rock") (lit "scissors") = lit "win"
     <-> beats (lit "rock") (lit "scissors"))
  /\ (determine_result (lit "rock") (lit "scissors") = lit "lose"
     <-> beats (lit "scissors") (lit "rock")).
Proof.
  apply (determine_result_table (lit "rock") (lit "scissors"));
    unfold VALID_CHOICES; rewrite !elem_of_cons; auto.
Defined.

(** The table of the repository's test. *)
Example determine_result_all_combinations :
  let rock := lit "rock" in
  let paper := lit "paper" in
  let scissors := lit "scissors" in
  map (fun '(user, cpu) => determine_result user cpu)
      [(rock, scissors); (rock, paper); (rock, rock);
       (paper, rock); (paper, scissors); (paper, paper);
       (scissors, paper); (scissors, rock); (scissors, scissors)]
  = [lit "win"; lit "lose"; lit "draw"; lit "win"; lit "lose"; lit "draw";
     lit "win"; lit "lose"; lit "draw"].
Proof. vm_compute. reflexivity. Qed.

Lemma random_choice_valid (draw : nat) :
  exists cpu, cpu ∈ VALID_CHOICES /\ random_choice draw VALID_CHOICES = Ok cpu.
Proof.
  unfold random_choice.
  assert (H : (draw mod length VALID_CHOICES < length VALID_CHOICES)%nat)
    by (apply Nat.mod_upper_bound; discriminate).
  apply lookup_lt_is_Some in H. destruct H as [cpu Hc]. rewrite Hc.
  exists cpu. split; [|reflexivity]. by eapply list_elem_of_lookup_2.
Qed.

(** C10.  [determine_result] validates nothing: a user string outside the
    three choices against a different CPU string gives "lose".  The
    invalid-choice error comes from [play], which raises it on exactly the
    strings outside the three choices and otherwise returns the CPU's
    choice with the result of [determine_result]. *)
Theorem determine_result_unvalidated (user cpu : str) :
  (user ∉ VALID_CHOICES -> cpu <> user ->
   determine_result user cpu = lit "lose")
  /\ (user ∉ VALID_CHOICES ->
      forall draw, play draw user
                   = Raise (ValueError (msg_invalid_choice user)))
  /\ (user ∈ VALID_CHOICES ->
      forall draw, exists c,
        c ∈ VALID_CHOICES /\ play draw user = Ok (c, determine_result user c)).
Proof.
  split; [|split].
  - intros Hu Hne. unfold determine_result.
    rewrite bool_decide_eq_false_2 by congruence.
    unfold VALID_CHOICES in Hu. rewrite !not_elem_of_cons in Hu.
    destruct Hu as (Hr & Hp & Hs & _).
    rewrite !lookup_insert_ne, lookup_empty by congruence.
    reflexivity.
  - intros Hu draw. unfold play. by rewrite bool_decide_eq_false_2.
  - intros Hu draw. unfold play. rewrite bool_decide_eq_true_2 by done.
    destruct (random_choice_valid draw) as (c & Hc & Hr).
    exists c. split; [exact Hc|]. rewrite Hr. reflexivity.
Qed.

Lemma determine_result_unvalidated_witness :
  determine_result (lit "lizard") (lit "rock") = lit "lose"
  /\ play 2 (lit "lizard")
     = Raise (ValueError (msg_invalid_choice (lit "lizard"))).
Proof.
  assert (Hu : lit "lizard" ∉ VALID_CHOICES).
  { unfold VALID_CHOICES. rewrite !not_elem_of_cons.
    repeat split; try (vm_compute; discriminate). apply not_elem_of_nil. }
  destruct (determine_result_unvalidated (lit "lizard") (lit "rock"))
    as (H1 & H2 & _).
  split; [apply H1; [exact Hu | vm_compute; discriminate] | apply H2, Hu].
Defined.

Example play_rock_against_paper :
  play 4 (lit "rock") = Ok (lit "paper", lit "lose").
Proof. vm_compute. reflexivity. Qed.

End rps_spec.

(** ** gene_expression.py *)

Module gene_expression_spec.
Import gene_expression.

Lemma str_leb_refl a : str_leb a a = true.
Proof.
  induction a as [|x a IH]; [done|]. simpl. by rewrite N.ltb_irrefl.
Qed.

Lemma str_leb_total a b : str_leb a b = true \/ str_leb b a = true.
Proof.
  revert b. induction a as [|x a IH]; intros [|y b]; simpl; auto.
  destruct (N.ltb_spec x y), (N.ltb_spec y x); auto; lia.
Qed.

Lemma str_leb_trans a b c :
  str_leb a b = true -> str_leb b c = true -> str_leb a c = true.
Proof.
  revert b c. induction a as [|x a IH]; intros [|y b] [|z c]; simpl; auto;
    try discriminate.
  destruct (N.ltb_spec x y), (N.ltb_spec y x), (N.ltb_spec y z),
    (N.ltb_spec z y), (N.ltb_spec x z), (N.ltb_spec z x);
    try discriminate; try lia; auto.
  apply IH.
Qed.

Lemma str_leb_antisym a b :
  str_leb a b = true -> str_leb b a = true -> a = b.
Proof.
  revert b. induction a as [|x a IH]; intros [|y b]; simpl; auto;
    try discriminate.
  destruct (N.ltb_spec x y), (N.ltb_spec y x); try discriminate; try lia.
  intros H1 H2. f_equal; [lia | by apply IH].
Qed.

#[local] Instance gene_le_total : Total gene_le.
Proof. intros r1 r2. apply str_leb_total. Qed.

#[local] Instance gene_le_trans : Transitive gene_le.
Proof. intros r1 r2 r3. apply str_leb_trans. Qed.

(** The order is Python's on [str]: a prefix comes first, and uppercase
    letters come before lowercase ones. *)
Example str_leb_examples :
  str_leb (lit "A") (lit "AB") = true /\ str_leb (lit "AB") (lit "A") = false
  /\ str_leb (lit "B") (lit "a") = true /\ str_leb (lit "a") (lit "B") = false.
Proof. repeat split; reflexivity. Qed.


(** The rows of the example: (Z,1), (A,10), (B,5). *)
Definition example_table : list row :=
  [ Row (lit "Z") (PyFloat.decimal 1 0);
    Row (lit "A") (PyFloat.decimal 10 0);
    Row (lit "B") (PyFloat.decimal 5 0) ].


Example filter_gene_inclusive_threshold :
  map gene
    (filter_gene [ Row (lit "A") (PyFloat.decimal 1 0);
                   Row (lit "B") (PyFloat.decimal 2 0);
                   Row (lit "C") (PyFloat.decimal 3 0) ]
                 (PyFloat.decimal 2 0))
  = [lit "B"; lit "C"].
Proof. vm_compute. reflexivity. Qed.

Example main_nothing_retained :
  main example_table (PyFloat.decimal 11 0)
  = IO [[Txt (lit "No se encontraron genes por encima del threshold.")]]
       (Ok tt).
Proof. vm_compute. reflexivity. Qed.

End gene_expression_spec.

(** ** Floats *)

Module PyFloatFacts.
Import PyFloat.
Local Open Scope Z_scope.

(** The floats 0.0 and 1.0. *)
Definition zero : float := S754_zero false.
Definition one : float := S754_finite false 4503599627370496 (-52).

Example decimal_zero_one : decimal 0 0 = zero /\ decimal 1 0 = one.
Proof. split; reflexivity. Qed.

(** A float between 0.0 and 1.0. *)
Definition in_unit (x : float) : Prop :=
  x = zero
  \/ exists m e, x = S754_finite false m e /\ e <= 0 /\ Z.pos m <= 2 ^ (- e).

(** The model of the quotient agrees with IEEE 754 division of the Standard
    Library on operands that are floats themselves. *)
Example true_div_agrees_with_SFdiv :
  let f n := binary_normalize 53 1024 n 0 false in
  true_div 2 7 = Ok (SFdiv 53 1024 (f 2) (f 7))
  /\ true_div 1 3 = Ok (SFdiv 53 1024 (f 1) (f 3))
  /\ true_div 3 40 = Ok (SFdiv 53 1024 (f 3) (f 40))
  /\ true_div 123456789 (-1000) = Ok (SFdiv 53 1024 (f 123456789) (f (-1000))).
Proof. repeat split; vm_compute; reflexivity. Qed.

(** Ties go to the even digit, and the value rounded is the binary one:
    [round(0.125, 2)] is 0.12, [round(2.675, 2)] is 2.67, [round(25.0, -1)]
    is 20.0, [round(-0.4, 0)] is -0.0. *)
Example round_examples :
  round (decimal 125 3) 2 = Ok (decimal 12 2)
  /\ round (decimal 2675 3) 2 = Ok (decimal 267 2)
  /\ round (decimal 25 0) (-1) = Ok (decimal 20 0)
  /\ round (decimal (-4) 1) 0 = Ok (S754_zero true).
Proof. repeat split; vm_compute; reflexivity. Qed.


Lemma round_ne_nonneg p q : 0 < q -> 0 <= p -> 0 <= round_ne p q.
Proof.
  intros Hq Hp. unfold round_ne.
  assert (0 <= p / q) by (apply Z.div_pos; lia).
  destruct (2 * (p mod q) ?= q); [destruct (Z.even (p / q))| |]; lia.
Qed.

Lemma round_ne_le p q k : 0 < q -> p <= k * q -> round_ne p q <= k.
Proof.
  intros Hq Hp. unfold round_ne.
  pose proof (Z.div_mod p q ltac:(lia)) as Hd.
  pose proof (Z.mod_pos_bound p q Hq) as Hr.
  set (f := p / q) in *. set (r := p mod q) in *.
  assert (Hf : f <= k) by nia.
  destruct (2 * r ?= q) eqn:E.
  - apply Z.compare_eq_iff in E. destruct (Z.even f); [lia|]. nia.
  - lia.
  - apply Z.compare_gt_iff in E. nia.
Qed.

Lemma ilog2_ratio_le p q : 0 < p <= q -> ilog2_ratio p q <= 0.
Proof.
  intros [Hp Hq]. unfold ilog2_ratio.
  pose proof (Z.log2_le_mono p q Hq).
  destruct (_ <? _); lia.
Qed.


(** A quotient between 0 and 1 is a float between 0.0 and 1.0. *)
Lemma of_ratio_unit p q :
  0 < p <= q -> exists r, of_ratio p q = Some r /\ in_unit r.
Proof.
  intros [Hp Hq]. unfold of_ratio.
  replace (p =? 0) with false by (symmetry; apply Z.eqb_neq; lia).
  replace (p <? 0) with false by (symmetry; apply Z.ltb_ge; lia).
  rewrite (Z.abs_eq p) by lia.
  pose proof (ilog2_ratio_le p q (conj Hp Hq)) as Hl.
  set (e := Z.max (ilog2_ratio p q - 52) (-1074)).
  assert (He : e <= -52) by lia.
  replace (Z.max 0 (- e)) with (- e) by lia.
  replace (Z.max 0 e) with 0 by lia.
  rewrite Z.pow_0_r, Z.mul_1_r.
  set (m := round_ne (p * 2 ^ (- e)) q).
  assert (Hpow : 0 < 2 ^ (- e)) by (apply Z.pow_pos_nonneg; lia).
  assert (Hm0 : 0 <= m) by (apply round_ne_nonneg; nia).
  assert (Hm1 : m <= 2 ^ (- e)) by (apply round_ne_le; nia).
  destruct (m =? 2 ^ 53) eqn:E53.
  - apply Z.eqb_eq in E53.
    assert (H53 : 53 <= - e).
    { apply (Z.pow_le_mono_r_iff 2); lia. }
    replace (2 ^ 52 =? 0) with false by reflexivity.
    replace (971 <? e + 1) with false by (symmetry; apply Z.ltb_ge; lia).
    eexists. split; [reflexivity|]. right. do 2 eexists.
    split; [reflexivity|]. split; [lia|].
    change (Z.pos (Z.to_pos (2 ^ 52))) with (2 ^ 52).
    apply Z.pow_le_mono_r; lia.
  - destruct (m =? 0) eqn:E0.
    + eexists. split; [reflexivity|]. by left.
    + apply Z.eqb_neq in E0.
      replace (971 <? e) with false by (symmetry; apply Z.ltb_ge; lia).
      eexists. split; [reflexivity|]. right. do 2 eexists.
      split; [reflexivity|]. split; [lia|].
      rewrite Z2Pos.id by lia. exact Hm1.
Qed.




End PyFloatFacts.

(** ** at_content.py *)

Module at_content_spec.
Import at_content PyFloat PyFloatFacts PyStrFacts.

Lemma count_AT_le (s : str) : (count 65 s + count 84 s <= len s)%Z.
Proof.
  unfold len. induction s as [|x s IH]; [done|].
  cbn [count length]. rewrite Nat2Z.inj_succ.
  destruct (N.eqb_spec x 65) as [->|]; [simpl; lia|].
  destruct (x =? 84)%N; lia.
Qed.







(** The rounding is that of the binary quotient, not of the fraction:
    three A among forty symbols make the fraction 0.075, whose rounding to
    two places, ties to even, is 0.08; the float nearest to 0.075 lies
    below it and the function returns 0.07. *)
Example get_at_content_binary_rounding :
  get_at_content latin1_upper (lit "AAA" ++ repeat 71%N 37) 2
  = Ok (decimal 7 2)
  /\ round_ne (3 * 10 ^ 2) 40 = 8%Z
  /\ eqb (decimal 7 2) (decimal 8 2) = false.
Proof. repeat split; vm_compute; reflexivity. Qed.

(** On the empty sequence the division fails. *)
Example get_at_content_empty upper_ext :
  get_at_content upper_ext [] 2 = Raise ZeroDivisionError.
Proof. reflexivity. Qed.

(** A negative precision rounds 1.0 away. *)
Example get_at_content_negative_precision :
  get_at_content latin1_upper (lit "AT") (-1) = Ok zero.
Proof. vm_compute. reflexivity. Qed.

End at_content_spec.

(** * Further properties *)

(** ** Strings *)

Module PyStrMore.
Import PyStrFacts.

Lemma split_no_sep sep s : contains sep s = false -> split sep s = [s].
Proof.
  induction s as [|c s IH]; [done|]. simpl. rewrite (N.eqb_sym sep c).
  destruct (c =? sep)%N; [done|]. simpl. intros H. by rewrite IH.
Qed.

Lemma split_app_sep sep pre rest :
  contains sep pre = false ->
  split sep (pre ++ sep :: rest) = pre :: split sep rest.
Proof.
  induction pre as [|c pre IH]; simpl.
  - by rewrite N.eqb_refl.
  - rewrite (N.eqb_sym sep c). destruct (c =? sep)%N; [done|]. simpl.
    intros H. by rewrite IH.
Qed.

(** No part of a split holds the separator. *)
Lemma split_parts_no_sep sep s :
  Forall (fun p => contains sep p = false) (split sep s).
Proof.
  induction s as [|c s IH]; simpl; [by repeat constructor|].
  destruct (c =? sep)%N eqn:E; [by constructor|].
  destruct (split sep s) as [|p ps].
  { repeat constructor. simpl. by rewrite (N.eqb_sym sep c), E. }
  inversion IH as [|? ? Hp Hps]; subst. constructor; [|done].
  simpl. by rewrite (N.eqb_sym sep c), E.
Qed.

Lemma contains_false c s : contains c s = false <-> c ∉ s.
Proof.
  unfold contains. induction s as [|x s IH]; simpl.
  - split; [intros _; apply not_elem_of_nil | done].
  - rewrite not_elem_of_cons, orb_false_iff, IH, N.eqb_neq. tauto.
Qed.

Lemma contains_app c s t :
  contains c (s ++ t) = contains c s || contains c t.
Proof. unfold contains. apply existsb_app. Qed.

(** [lstrip] drops a prefix of whitespace and nothing else. *)
Lemma lstrip_split s :
  exists ws, s = ws ++ lstrip s /\ Forall (fun c => is_space c = true) ws.
Proof.
  induction s as [|c s (ws & E & H)]; [by exists []|]. simpl.
  destruct (is_space c) eqn:Ec.
  - exists (c :: ws). split; [simpl; congruence | by constructor].
  - by exists [].
Qed.

Lemma rstrip_split s :
  exists ws, s = rstrip s ++ ws /\ Forall (fun c => is_space c = true) ws.
Proof.
  destruct (lstrip_split (rev s)) as (ws & E & H). exists (rev ws). split.
  - unfold rstrip. rewrite <- rev_app_distr, <- E. by rewrite rev_involutive.
  - by apply Forall_rev.
Qed.

Lemma lstrip_head s :
  match lstrip s with [] => True | c :: _ => is_space c = false end.
Proof.
  induction s as [|c s IH]; [done|]. simpl.
  destruct (is_space c) eqn:E; [exact IH | exact E].
Qed.

Lemma lstrip_id s :
  match s with [] => True | c :: _ => is_space c = false end -> lstrip s = s.
Proof. destruct s as [|c s]; [done|]. simpl. by intros ->. Qed.

(** What [strip] returns starts and ends with no whitespace. *)
Lemma strip_ends s :
  match strip s with [] => True | c :: _ => is_space c = false end
  /\ match rev (strip s) with [] => True | c :: _ => is_space c = false end.
Proof.
  unfold strip. split.
  - destruct (rstrip_split (lstrip s)) as (ws & E & _).
    pose proof (lstrip_head s) as Hh.
    destruct (rstrip (lstrip s)) as [|c r]; [done|].
    rewrite E in Hh. exact Hh.
  - unfold rstrip. rewrite rev_involutive. apply lstrip_head.
Qed.

Lemma strip_idempotent s : strip (strip s) = strip s.
Proof.
  destruct (strip_ends s) as [Hh Ht]. unfold strip at 1.
  rewrite (lstrip_id _ Hh). unfold rstrip.
  rewrite (lstrip_id _ Ht). apply rev_involutive.
Qed.

(** [strip] keeps a contiguous piece of the string. *)
Lemma strip_elem c s : c ∈ strip s -> c ∈ s.
Proof.
  unfold strip. intros H.
  destruct (lstrip_split s) as (ws & E & _).
  destruct (rstrip_split (lstrip s)) as (ws' & E' & _).
  rewrite E, E'. set_solver.
Qed.

Lemma join_nil_cons (p : str) ps : join [] (p :: ps) = p ++ join [] ps.
Proof. destruct ps; simpl; [by rewrite app_nil_r | done]. Qed.

Lemma join_nil_elem c parts :
  c ∈ join [] parts -> exists p, p ∈ parts /\ c ∈ p.
Proof.
  induction parts as [|p ps IH]; [by intros ?%elem_of_nil|].
  rewrite join_nil_cons, elem_of_app. intros [H|H].
  - exists p. split; [left | done].
  - destruct (IH H) as (q & Hq & Hc). exists q. split; [by right | done].
Qed.

(** On ASCII uppercase input, [upper] changes nothing. *)
Lemma upper_fixed upper_ext s :
  Forall (fun c => (c < 97)%N) s -> upper upper_ext s = s.
Proof.
  induction 1 as [|c s Hc _ IH]; [done|].
  change (upper upper_ext (c :: s))
    with (to_upper upper_ext c ++ upper upper_ext s).
  rewrite IH, to_upper_ascii by lia. unfold ascii_upper.
  replace (97 <=? c)%N with false by (symmetry; apply N.leb_gt; lia).
  reflexivity.
Qed.

Lemma count_filter (p : N -> bool) c s :
  p c = true -> count c (List.filter p s) = count c s.
Proof.
  intros Hp. induction s as [|x s IH]; [done|]. simpl.
  destruct (p x) eqn:Ex; simpl; [by rewrite IH|].
  destruct (N.eqb_spec x c) as [->|]; [congruence | by rewrite IH].
Qed.

End PyStrMore.

(** ** base_freq.py *)

Module base_freq_more.
Import base_freq base_freq_spec PyStrFacts PyStrMore.

Lemma split_elem sep s p c : p ∈ split sep s -> c ∈ p -> c ∈ s.
Proof.
  revert p. induction s as [|x s IH]; intros p; simpl.
  - intros ->%list_elem_of_singleton. done.
  - destruct (x =? sep)%N.
    + intros [->|Hp]%elem_of_cons Hc; [by apply elem_of_nil in Hc|].
      right. by eapply IH.
    + pose proof (split_nonempty sep s) as Hne.
      destruct (split sep s) as [|q qs]; [done|].
      intros [->|Hp]%elem_of_cons Hc.
      * apply elem_of_cons in Hc as [->|Hc]; [left|].
        right. apply (IH q); [left | done].
      * right. apply (IH p); [by right | done].
Qed.

(** The part after the first marker, when the marker occurs. *)
Lemma split_second content :
  contains 62 content = true ->
  exists parte, split 62 content !! 1%nat = Some parte
                /\ contains 62 parte = false
                /\ (forall c, c ∈ parte -> c ∈ content).
Proof.
  intros H. pose proof (split_contains 62 content H) as Hl.
  pose proof (split_parts_no_sep 62 content) as Hp.
  destruct (split 62 content) as [|p0 [|p1 ps]] eqn:E; simpl in Hl; try lia.
  exists p1. split; [done|]. split.
  - by inversion Hp as [|? ? _ [|? ? ? _]].
  - intros c Hc. apply (split_elem 62 content p1); [|done].
    rewrite E. right. left.
Qed.

(** X1.  [parse_single_fasta] reads the first record only: the text before
    the first marker and everything from the second marker on do not
    change its result. *)
Theorem parse_single_fasta_first_record (pre body rest : str)
    (Hpre : contains 62 pre = false) (Hbody : contains 62 body = false) :
  parse_single_fasta (pre ++ 62%N :: body ++ 62%N :: rest)
  = parse_single_fasta (62%N :: body)
  /\ parse_single_fasta (pre ++ 62%N :: body)
     = parse_single_fasta (62%N :: body).
Proof.
  unfold parse_single_fasta.
  rewrite (split_app_sep 62 pre (body ++ 62%N :: rest) Hpre).
  rewrite (split_app_sep 62 body rest Hbody).
  rewrite (split_app_sep 62 pre body Hpre).
  change (62%N :: body) with ([] ++ 62%N :: body).
  rewrite (split_app_sep 62 [] body eq_refl).
  rewrite (split_no_sep 62 body Hbody). done.
Qed.

Lemma parse_single_fasta_first_record_witness :
  let pre := lit "; note" in
  let body := lit "h1" ++ [10%N] ++ lit "ATG" in
  let rest := lit "h2" ++ [10%N] ++ lit "CCCC" in
  contains 62 pre = false /\ contains 62 body = false
  /\ parse_single_fasta (pre ++ [62%N] ++ body ++ [62%N] ++ rest)
     = parse_single_fasta ([62%N] ++ body)
  /\ parse_single_fasta (pre ++ [62%N] ++ body)
     = parse_single_fasta ([62%N] ++ body).
Proof.
  intros pre body rest.
  split; [reflexivity|]. split; [reflexivity|].
  apply (parse_single_fasta_first_record pre body rest); reflexivity.
Defined.

Lemma parse_without_marker content :
  contains 62 content = false -> parse_single_fasta content = Raise IndexError.
Proof.
  intros H. unfold parse_single_fasta. by rewrite (split_no_sep 62 content H).
Qed.

Lemma parse_with_marker content :
  contains 62 content = true ->
  parse_single_fasta content = Raise (ValueError msg_empty_sequence)
  \/ exists header seq_raw, parse_single_fasta content = Ok (header, seq_raw).
Proof.
  intros H. destruct (split_second content H) as (parte & E & _).
  unfold parse_single_fasta. rewrite E.
  destruct (length _ =? 0)%nat; eauto.
Qed.

(** X2.  Called on content without the marker, [parse_single_fasta] raises
    [IndexError], and on no other content; so after [validate_is_fasta]
    has accepted the content, its only failure is the "empty sequence"
    [ValueError]. *)
Theorem parse_single_fasta_index_error (content : str) :
  (parse_single_fasta content = Raise IndexError
   <-> contains 62 content = false)
  /\ (validate_is_fasta content = Ok tt ->
      parse_single_fasta content = Raise (ValueError msg_empty_sequence)
      \/ exists header seq_raw,
           parse_single_fasta content = Ok (header, seq_raw)).
Proof.
  split.
  - split; [|apply parse_without_marker].
    destruct (contains 62 content) eqn:H; [|done].
    destruct (parse_with_marker content H) as [E|(h & s & E)];
      rewrite E; discriminate.
  - unfold validate_is_fasta.
    destruct (contains 62 content) eqn:H; [|discriminate].
    intros _. by apply parse_with_marker.
Qed.

Lemma split_head sep c s :
  (c =? sep)%N = false ->
  exists p ps, split sep (c :: s) = (c :: p) :: ps.
Proof.
  intros H. simpl. rewrite H. destruct (split sep s); eauto.
Qed.

(** X3.  When [parse_single_fasta] returns, the header is not empty, does
    not begin with whitespace and holds neither a newline nor a marker;
    the raw sequence is not empty, holds neither a newline nor a marker,
    and neither begins nor ends with whitespace. *)
Theorem parse_single_fasta_returns (content header seq_raw : str)
    (Hparse : parse_single_fasta content = Ok (header, seq_raw)) :
  (exists c h, header = c :: h /\ is_space c = false)
  /\ (10%N ∉ header) /\ (62%N ∉ header)
  /\ seq_raw <> [] /\ (10%N ∉ seq_raw) /\ (62%N ∉ seq_raw)
  /\ strip seq_raw = seq_raw.
Proof.
  destruct (contains 62 content) eqn:Hc;
    [|rewrite (parse_without_marker content Hc) in Hparse; discriminate].
  destruct (split_second content Hc) as (parte & E & Hno & _).
  unfold parse_single_fasta in Hparse. rewrite E in Hparse.
  set (block := strip parte) in *.
  destruct (length (strip (join [] (tl (split 10 block)))) =? 0)%nat eqn:El;
    [discriminate|].
  inversion Hparse as [[Hh Hs]]. clear Hparse.
  apply Nat.eqb_neq in El.
  assert (Hblock : forall c, c ∈ block -> c <> 62%N).
  { intros c Hin ->. apply strip_elem in Hin.
    apply contains_false in Hno. done. }
  pose proof (split_parts_no_sep 10 block) as Hparts.
  rewrite Forall_forall in Hparts.
  assert (Hseq : forall c, c ∈ strip (join [] (tl (split 10 block))) ->
                           c <> 10%N /\ c <> 62%N).
  { intros c Hin. apply strip_elem, join_nil_elem in Hin as (p & Hp & Hin).
    assert (Hp' : p ∈ split 10 block).
    { destruct (split 10 block); [done | by right]. }
    split.
    - intros ->. specialize (Hparts p Hp'). apply contains_false in Hparts.
      done.
    - apply Hblock. by apply (split_elem 10 block p). }
  assert (Hhead : hd [] (split 10 block) ∈ split 10 block).
  { pose proof (split_nonempty 10 block).
    destruct (split 10 block); [done | left]. }
  split; [|split; [|split; [|split; [|split; [|split]]]]].
  - destruct block as [|c b] eqn:Eb.
    { exfalso. apply El. reflexivity. }
    pose proof (proj1 (strip_ends parte)) as Hsp. fold block in Hsp.
    rewrite Eb in Hsp.
    assert (Hne : (c =? 10)%N = false).
    { apply N.eqb_neq. intros ->. discriminate Hsp. }
    destruct (split_head 10 c b Hne) as (p & ps & Ep).
    rewrite Ep. simpl. eauto.
  - specialize (Hparts _ Hhead). by apply contains_false in Hparts.
  - intros Hin. apply (Hblock 62%N); [|done].
    by apply (split_elem 10 block (hd [] (split 10 block))).
  - intros Hn. rewrite Hn in El. done.
  - intros Hin. by apply Hseq in Hin as [? _].
  - intros Hin. by apply Hseq in Hin as [_ ?].
  - apply strip_idempotent.
Qed.

Lemma parse_single_fasta_returns_witness :
  let content :=
    lit ">h1" ++ [10%N] ++ lit "ATG" ++ [10%N] ++ lit "CC" ++ [10%N] in
  parse_single_fasta content = Ok (lit "h1", lit "ATGCC")
  /\ (exists c h, lit "h1" = c :: h /\ is_space c = false)
  /\ (10%N ∉ lit "h1") /\ (62%N ∉ lit "h1")
  /\ lit "ATGCC" <> [] /\ (10%N ∉ lit "ATGCC") /\ (62%N ∉ lit "ATGCC")
  /\ strip (lit "ATGCC") = lit "ATGCC".
Proof.
  intros content. split; [reflexivity|].
  apply (parse_single_fasta_returns content). reflexivity.
Defined.

(** A blank header line makes the first line of the sequence the header. *)
Example parse_single_fasta_blank_header :
  parse_single_fasta (lit ">  " ++ [10%N] ++ lit "ATG" ++ [10%N] ++ lit "CC")
  = Ok (lit "ATG", lit "CC")
  /\ parse_single_fasta (lit ">" ++ [10%N] ++ lit "ATG")
     = Raise (ValueError msg_empty_sequence).
Proof. split; reflexivity. Qed.

Lemma count_bases_le seq :
  (count 65 seq + count 84 seq + count 71 seq + count 67 seq <= len seq)%Z
  /\ ((count 65 seq + count 84 seq + count 71 seq + count 67 seq = len seq)%Z
      -> cleaned seq).
Proof.
  unfold cleaned, len. induction seq as [|x seq [IH1 IH2]]; [done|].
  cbn [forallb count length]. rewrite Nat2Z.inj_succ. unfold is_base at 1.
  destruct (N.eqb_spec x 65) as [->|]; [cbn; split; [lia|intros; apply IH2; lia]|].
  destruct (N.eqb_spec x 84) as [->|]; [cbn; split; [lia|intros; apply IH2; lia]|].
  destruct (N.eqb_spec x 71) as [->|]; [cbn; split; [lia|intros; apply IH2; lia]|].
  destruct (N.eqb_spec x 67) as [->|]; [cbn; split; [lia|intros; apply IH2; lia]|].
  cbn. split; lia.
Qed.

(** X4.  On any string, cleaned or not, the four base counts of
    [compute_base_counts] add up to at most the total, and to the total
    exactly when the string holds A, T, G, C only; the mapping has no key
    besides the five. *)
Theorem compute_base_counts_any (seq : str) :
  exists a t g c total : Z,
    compute_base_counts seq !! lit "A" = Some a
    /\ compute_base_counts seq !! lit "T" = Some t
    /\ compute_base_counts seq !! lit "G" = Some g
    /\ compute_base_counts seq !! lit "C" = Some c
    /\ compute_base_counts seq !! lit "total" = Some total
    /\ (a + t + g + c <= total)%Z
    /\ ((a + t + g + c = total)%Z <-> cleaned seq)
    /\ (forall key, key ∉ [lit "A"; lit "T"; lit "G"; lit "C"; lit "total"] ->
                    compute_base_counts seq !! key = None).
Proof.
  destruct (compute_base_counts_lookup seq) as (HA & HT & HG & HC & Htot).
  destruct (count_bases_le seq) as [Hle Heq].
  exists (count 65 seq), (count 84 seq), (count 71 seq), (count 67 seq), (len seq).
  repeat split; try assumption.
  - apply count_bases.
  - intros key Hkey. rewrite !not_elem_of_cons in Hkey.
    destruct Hkey as (? & ? & ? & ? & ? & _).
    unfold compute_base_counts.
    rewrite !lookup_insert_ne by congruence. apply lookup_empty.
Qed.

Lemma valid_in_default b : valid_in default_valid_bases b = is_base b.
Proof.
  unfold valid_in, default_valid_bases, is_base.
  change (lit "A") with [65%N]; change (lit "T") with [84%N];
  change (lit "G") with [71%N]; change (lit "C") with [67%N].
  destruct (N.eqb_spec b 65) as [->|]; [by apply bool_decide_eq_true_2; set_solver|].
  destruct (N.eqb_spec b 84) as [->|]; [by apply bool_decide_eq_true_2; set_solver|].
  destruct (N.eqb_spec b 71) as [->|]; [by apply bool_decide_eq_true_2; set_solver|].
  destruct (N.eqb_spec b 67) as [->|]; [by apply bool_decide_eq_true_2; set_solver|].
  apply bool_decide_eq_false_2. rewrite !not_elem_of_cons.
  repeat split; try congruence. apply not_elem_of_nil.
Qed.

Lemma is_base_upper c : is_base c = true -> (c < 97)%N.
Proof.
  unfold is_base. rewrite !orb_true_iff, !N.eqb_eq. lia.
Qed.

Lemma filter_all {A} (p : A -> bool) l :
  forallb p l = true ->
  List.filter p l = l /\ List.filter (fun x => negb (p x)) l = [].
Proof.
  induction l as [|x l IH]; [done|]. simpl.
  intros [Hx Hl]%andb_prop. rewrite Hx. simpl.
  destruct (IH Hl) as [-> ->]. done.
Qed.

Lemma filter_none {A} (p : A -> bool) l :
  List.filter p l = [] -> List.filter (fun x => negb (p x)) l = l.
Proof.
  induction l as [|x l IH]; [done|]. simpl.
  destruct (p x); [discriminate|]. simpl. intros H. by rewrite IH.
Qed.

(** X5.  With the default bases, the cleaned sequence holds A, T, G, C
    only and the list of invalid characters holds none of them; cleaning
    a cleaned sequence again returns it unchanged, with no invalid
    character. *)
Theorem clean_sequence_idempotent (upper_ext : N -> list N) (seq : str) :
  let r := clean_sequence upper_ext seq default_valid_bases in
  cleaned r.1
  /\ Forall (fun c => is_base c = false) r.2
  /\ clean_sequence upper_ext r.1 default_valid_bases = (r.1, []).
Proof.
  intros r. pose proof (clean_sequence_cleaned upper_ext seq) as Hc.
  fold r in Hc. split; [exact Hc|]. split.
  - subst r. rewrite clean_sequence_filter. cbn [snd].
    apply Forall_forall. intros c [_ Hin]%list_elem_of_In%filter_In.
    rewrite valid_in_default in Hin. by apply negb_true_iff.
  - rewrite clean_sequence_filter.
    assert (Hup : upper upper_ext r.1 = r.1).
    { apply upper_fixed. unfold cleaned in Hc.
      rewrite forallb_forall in Hc. apply Forall_forall.
      intros c Hin%list_elem_of_In. by apply is_base_upper, Hc. }
    rewrite Hup.
    assert (Hv : forallb (valid_in default_valid_bases) r.1 = true).
    { unfold cleaned in Hc. rewrite forallb_forall in *.
      intros c Hin. rewrite valid_in_default. by apply Hc. }
    destruct (filter_all _ _ Hv) as [-> ->]. done.
Qed.

(** X6.  Cleaning loses no base: the counts that [compute_base_counts]
    gives for the cleaned sequence are the numbers of A, T, G, C in the
    uppercased raw sequence, and its total is the length of the uppercased
    raw sequence less the number of invalid characters. *)
Theorem clean_sequence_keeps_counts (upper_ext : N -> list N) (seq : str) :
  let r := clean_sequence upper_ext seq default_valid_bases in
  let counts := compute_base_counts r.1 in
  let seq_upper := upper upper_ext seq in
  counts !! lit "A" = Some (count 65 seq_upper)
  /\ counts !! lit "T" = Some (count 84 seq_upper)
  /\ counts !! lit "G" = Some (count 71 seq_upper)
  /\ counts !! lit "C" = Some (count 67 seq_upper)
  /\ counts !! lit "total" = Some (len seq_upper - len r.2)%Z.
Proof.
  intros r counts seq_upper. subst counts.
  destruct (compute_base_counts_lookup r.1) as (HA & HT & HG & HC & Htot).
  rewrite HA, HT, HG, HC, Htot. subst r seq_upper.
  rewrite clean_sequence_filter. cbn [fst snd].
  pose proof (filter_split_length (valid_in default_valid_bases)
                (upper upper_ext seq)) as L.
  rewrite !count_filter by (by rewrite valid_in_default).
  repeat split. f_equal. unfold len. lia.
Qed.

(** X7.  When the first record parses and its sequence holds no valid
    base, [main] prints one advisory for every character of the uppercased
    raw sequence, in order, then the "no valid bases" error, and returns
    1. *)
Theorem main_reports_no_valid_bases
    (upper_ext : N -> list N) (ruta content header seq_raw : str)
    (Hparse : parse_single_fasta content = Ok (header, seq_raw))
    (Hnone : (clean_sequence upper_ext seq_raw default_valid_bases).1 = []) :
  main upper_ext ruta (Content content)
  = IO (map (fun ch => aviso ch header) (upper upper_ext seq_raw)
        ++ [[Txt msg_no_valid_bases]])
       (Ok 1%Z).
Proof.
  assert (Hc : contains 62 content = true).
  { destruct (contains 62 content) eqn:E; [done|].
    rewrite (parse_without_marker content E) in Hparse. discriminate. }
  assert (Hv : validate_is_fasta content = Ok tt).
  { unfold validate_is_fasta. rewrite Hc. cbn [negb].
    apply split_contains in Hc.
    destruct (length (split 62 content) <? 2)%nat eqn:El; [|done].
    apply Nat.ltb_lt in El. lia. }
  rewrite clean_sequence_filter in Hnone. cbn [fst] in Hnone.
  pose proof (filter_none _ _ Hnone) as Hall.
  unfold main. cbn [read_file]. rewrite Hv, Hparse.
  unfold mbind, io_bind, lift, except_ValueError. cbn [outcome written app].
  rewrite clean_sequence_filter, Hnone, Hall.
  reflexivity.
Qed.

Lemma main_reports_no_valid_bases_witness :
  let content := lit ">s" ++ [10%N] ++ lit "NNNNxxx" ++ [10%N] in
  parse_single_fasta content = Ok (lit "s", lit "NNNNxxx")
  /\ (clean_sequence latin1_upper (lit "NNNNxxx") default_valid_bases).1 = []
  /\ main latin1_upper (lit "novalids.fasta") (Content content)
     = IO (map (fun ch => aviso ch (lit "s"))
               (upper latin1_upper (lit "NNNNxxx"))
           ++ [[Txt msg_no_valid_bases]])
          (Ok 1%Z).
Proof.
  intros content. split; [reflexivity|]. split; [reflexivity|].
  apply (main_reports_no_valid_bases latin1_upper (lit "novalids.fasta") content
           (lit "s") (lit "NNNNxxx")); reflexivity.
Defined.

(** X8.  Given counts whose total is 0, [print_results] prints the header,
    the length and the "Frecuencias:" heading, and then fails with
    [ZeroDivisionError] at the first percentage; given counts without one
    of the keys it prints nothing and fails with [KeyError]. *)
Theorem print_results_failures (header : str) (counts : gmap str Z) :
  (counts !! lit "total" = Some 0%Z ->
   is_Some (counts !! lit "A") -> is_Some (counts !! lit "T") ->
   is_Some (counts !! lit "G") -> is_Some (counts !! lit "C") ->
   print_results header counts
   = IO [ [Txt (lit "Encabezado: " ++ header)];
          [Txt (u "Longitud secuencia válida: 0")];
          [Txt (lit "Frecuencias:")] ]
        (Raise ZeroDivisionError))
  /\ (forall key, key ∈ [lit "total"; lit "A"; lit "T"; lit "G"; lit "C"] ->
      counts !! key = None ->
      exists missing, print_results header counts = IO [] (Raise (KeyError missing))
                      /\ counts !! missing = None).
Proof.
  split.
  - intros Ht [a Ha] [t HT] [g Hg] [c Hc].
    unfold print_results, getitem. rewrite Ht, Ha, HT, Hg, Hc. reflexivity.
  - intros key Hkey Hnone. unfold print_results, getitem.
    destruct (counts !! lit "total") eqn:E1; [|by eexists].
    destruct (counts !! lit "A") eqn:E2; [|by eexists].
    destruct (counts !! lit "T") eqn:E3; [|by eexists].
    destruct (counts !! lit "G") eqn:E4; [|by eexists].
    destruct (counts !! lit "C") eqn:E5; [|by eexists].
    rewrite !elem_of_cons, elem_of_nil in Hkey.
    destruct Hkey as [->|[->|[->|[->|[->|[]]]]]]; congruence.
Qed.

Lemma print_results_failures_witness :
  print_results (lit "h") (compute_base_counts [])
  = IO [ [Txt (lit "Encabezado: " ++ lit "h")];
         [Txt (u "Longitud secuencia válida: 0")];
         [Txt (lit "Frecuencias:")] ]
       (Raise ZeroDivisionError)
  /\ exists missing,
       print_results (lit "h") (delete (lit "G") (compute_base_counts []))
       = IO [] (Raise (KeyError missing))
       /\ delete (lit "G") (compute_base_counts []) !! missing = None.
Proof.
  split.
  - apply (proj1 (print_results_failures (lit "h") (compute_base_counts [])));
      vm_compute; eauto.
  - apply (proj2 (print_results_failures (lit "h")
                    (delete (lit "G") (compute_base_counts []))) (lit "G"));
      [set_solver | apply lookup_delete_eq].
Defined.

End base_freq_more.

(** ** k_mers.py *)

Module k_mers_more.
Import k_mers k_mers_spec k_mers_cli PyStrFacts PyStrMore.

(** The number of the windows starting at the positions [idx] that hold
    the k-mer [w]. *)
Definition occurrences (seq : str) (k : nat) (w : str) (idx : list nat) : nat :=
  length (List.filter (fun i => bool_decide (slice seq i k = w)) idx).

Lemma tally_loop (seq : str) (k : nat) (w : str) (idx : list nat)
    (counts : gmap str Z) :
  let counts' :=
    fold_left
      (fun (counts : gmap str Z) i =>
         let kmer := slice seq i k in
         <[kmer := (default 0 (counts !! kmer) + 1)%Z]> counts)
      idx counts in
  default 0%Z (counts' !! w)
  = (default 0 (counts !! w) + Z.of_nat (occurrences seq k w idx))%Z
  /\ (counts' !! w = None
      <-> counts !! w = None /\ occurrences seq k w idx = 0%nat).
Proof.
  revert counts. unfold occurrences.
  induction idx as [|i idx IH]; intros counts; cbn [fold_left List.filter].
  - simpl. split; [lia | tauto].
  - specialize (IH (<[slice seq i k := (default 0 (counts !! slice seq i k) + 1)%Z]>
                      counts)).
    cbn zeta in IH. destruct IH as [IH1 IH2]. cbn zeta.
    rewrite IH1, IH2. clear IH1 IH2.
    destruct (decide (slice seq i k = w)) as [->|Hne].
    + rewrite bool_decide_eq_true_2 by done.
      rewrite lookup_insert_eq. cbn [default length]. unfold id.
      split; [lia|]. split; [intros [? _] | intros [_ ?]]; discriminate.
    + rewrite bool_decide_eq_false_2 by done.
      rewrite lookup_insert_ne by done. done.
Qed.

Lemma occurrences_pos seq k w idx :
  (0 < occurrences seq k w idx)%nat -> exists i, i ∈ idx /\ slice seq i k = w.
Proof.
  unfold occurrences. intros H.
  destruct (List.filter _ idx) as [|i l] eqn:E; [simpl in H; lia|].
  assert (Hi : In i (List.filter (fun i => bool_decide (slice seq i k = w)) idx))
    by (rewrite E; left; done).
  apply filter_In in Hi as [Hi Hw]. apply bool_decide_eq_true in Hw.
  exists i. split; [by apply list_elem_of_In | done].
Qed.

(** X9.  In the table of [count_kmers], the count of a k-mer is the number
    of positions [0 <= i <= len(seq) - k] at which it occurs in the
    sequence; a string that occurs at none is not a key, and every key has
    length [k]. *)
Theorem count_kmers_occurrences (seq : str) (k : Z) (counts : gmap str Z)
    (Hcount : count_kmers seq k = Ok counts) :
  let windows := List.seq 0 (Z.to_nat (len seq - k + 1)) in
  (forall w,
     counts !! w
     = if (occurrences seq (Z.to_nat k) w windows =? 0)%nat then None
       else Some (Z.of_nat (occurrences seq (Z.to_nat k) w windows)))
  /\ (forall w c, counts !! w = Some c ->
                  len w = k /\ (1 <= c)%Z
                  /\ exists i, (i + Z.to_nat k <= length seq)%nat
                               /\ slice seq i (Z.to_nat k) = w).
Proof.
  intros windows. unfold count_kmers in Hcount.
  destruct (k <=? 0)%Z eqn:E1; [discriminate|].
  destruct (len seq <? k)%Z eqn:E2; [discriminate|].
  apply Z.leb_gt in E1. apply Z.ltb_ge in E2.
  injection Hcount as Hc. fold windows in Hc.
  assert (L : forall w,
    counts !! w
    = if (occurrences seq (Z.to_nat k) w windows =? 0)%nat then None
      else Some (Z.of_nat (occurrences seq (Z.to_nat k) w windows))).
  { intros w.
    destruct (tally_loop seq (Z.to_nat k) w windows ∅) as [T1 T2].
    cbn zeta in T1, T2. rewrite Hc in T1, T2.
    rewrite lookup_empty in T1, T2. cbn [default] in T1.
    destruct (Nat.eqb_spec (occurrences seq (Z.to_nat k) w windows) 0)
      as [E0|E0].
    - by apply T2.
    - destruct (counts !! w) as [v|] eqn:Ev.
      + simpl in T1. f_equal. lia.
      + exfalso. apply E0. by apply T2. }
  split; [exact L|].
  intros w c Hw. rewrite L in Hw.
  destruct (Nat.eqb_spec (occurrences seq (Z.to_nat k) w windows) 0)
    as [E0|E0]; [discriminate|].
  inversion Hw as [Hcw]. clear Hw.
  destruct (occurrences_pos seq (Z.to_nat k) w windows) as (i & Hi & Hs);
    [lia|].
  subst windows. apply list_elem_of_In, in_seq in Hi.
  unfold len in *.
  assert (Hik : (i + Z.to_nat k <= length seq)%nat) by lia.
  split; [|split; [lia | eauto]].
  rewrite <- Hs. unfold slice. rewrite length_take, length_drop. lia.
Qed.

Lemma count_kmers_occurrences_witness :
  exists counts,
    count_kmers (lit "AAAA") 2 = Ok counts
    /\ counts !! lit "AA" = Some 3%Z /\ counts !! lit "AT" = None.
Proof.
  exists {[ lit "AA" := 3%Z ]}.
  assert (H : count_kmers (lit "AAAA") 2 = Ok {[ lit "AA" := 3%Z ]})
    by (vm_compute; reflexivity).
  split; [exact H|].
  destruct (count_kmers_occurrences (lit "AAAA") 2 _ H) as [L _].
  split; rewrite L; reflexivity.
Defined.

Lemma validate_sequence_ok upper_ext seq s :
  validate_sequence upper_ext (Some seq) = Ok s ->
  s = normalize upper_ext seq /\ s <> [] /\ only_ATCG s.
Proof.
  unfold validate_sequence, normalize. rewrite join_split_ws.
  set (n := upper upper_ext _).
  destruct (length n =? 0)%nat eqn:El; [discriminate|].
  destruct (bool_decide _) eqn:Eb; [discriminate|].
  intros [= <-]. split; [done|]. split.
  - intros Hn. rewrite Hn in El. discriminate.
  - apply bool_decide_eq_false in Eb. apply invalid_empty.
    destruct (decide ((list_to_set n ∖ list_to_set (lit "ATCG") : gset N) = ∅));
      [done | contradiction].
Qed.

Lemma only_ATCG_fixed upper_ext s :
  only_ATCG s -> normalize upper_ext s = s.
Proof.
  unfold only_ATCG, normalize. intros H.
  assert (Hs : forallb (fun c => negb (is_space c)) s = true).
  { apply forallb_forall. intros c Hc%list_elem_of_In.
    rewrite Forall_forall in H. specialize (H c Hc).
    change (lit "ATCG") with [65%N; 84%N; 67%N; 71%N] in H.
    rewrite !elem_of_cons, elem_of_nil in H.
    destruct H as [->|[->|[->|[->|[]]]]]; reflexivity. }
  assert (F : List.filter (fun c => negb (is_space c)) s = s).
  { clear H. induction s as [|c s IH]; [done|]. simpl in *.
    apply andb_prop in Hs as [Hc Hs]. rewrite Hc. f_equal. by apply IH. }
  rewrite F. apply upper_fixed.
  eapply Forall_impl; [exact H|]. intros c Hc. simpl in Hc.
  change (lit "ATCG") with [65%N; 84%N; 67%N; 71%N] in Hc.
  rewrite !elem_of_cons, elem_of_nil in Hc.
  destruct Hc as [->|[->|[->|[->|[]]]]]; reflexivity.
Qed.

(** X10.  What [validate_sequence] returns is not empty, holds A, T, C, G
    only, and is accepted unchanged when validated again. *)
Theorem validate_sequence_idempotent
    (upper_ext : N -> list N) (seq s : str)
    (Hvalid : validate_sequence upper_ext (Some seq) = Ok s) :
  s <> [] /\ only_ATCG s /\ validate_sequence upper_ext (Some s) = Ok s.
Proof.
  apply validate_sequence_ok in Hvalid as (_ & Hne & Hok).
  split; [exact Hne|]. split; [exact Hok|].
  pose proof (only_ATCG_fixed upper_ext s Hok) as Hfix.
  unfold normalize in Hfix.
  unfold validate_sequence. rewrite join_split_ws, Hfix.
  destruct s as [|c s]; [done|]. cbn [length Nat.eqb].
  rewrite bool_decide_eq_false_2; [done|].
  intros H. apply H. by apply invalid_empty.
Qed.

Lemma validate_sequence_idempotent_witness :
  validate_sequence latin1_upper (Some (lit " a t c g ")) = Ok (lit "ATCG")
  /\ lit "ATCG" <> [] /\ only_ATCG (lit "ATCG")
  /\ validate_sequence latin1_upper (Some (lit "ATCG")) = Ok (lit "ATCG").
Proof.
  assert (H : validate_sequence latin1_upper (Some (lit " a t c g "))
              = Ok (lit "ATCG")) by (vm_compute; reflexivity).
  split; [exact H|].
  exact (validate_sequence_idempotent latin1_upper _ _ H).
Defined.

#[local] Instance count_key_le_total : Total count_key_le.
Proof.
  intros [k1 c1] [k2 c2]. unfold count_key_le. cbn [fst snd].
  destruct (gene_expression_spec.str_leb_total k1 k2);
    destruct (Z.lt_trichotomy c1 c2) as [|[|]]; auto with lia.
Qed.

#[local] Instance count_key_le_trans : Transitive count_key_le.
Proof.
  intros [k1 c1] [k2 c2] [k3 c3]. unfold count_key_le. cbn [fst snd].
  intros [H1|[H1 L1]] [H2|[H2 L2]]; auto with lia.
  right. split; [lia|]. by eapply gene_expression_spec.str_leb_trans.
Qed.

#[local] Instance kmer_key_le_total : Total kmer_key_le.
Proof. intros x y. apply gene_expression_spec.str_leb_total. Qed.

#[local] Instance kmer_key_le_trans : Transitive kmer_key_le.
Proof. intros x y z. apply gene_expression_spec.str_leb_trans. Qed.

(** The relation the chosen order sorts by. *)
Definition key_le (sort : sort_choice) : relation (str * Z) :=
  match sort with
  | by_count => count_key_le
  | by_kmer => kmer_key_le
  end.

Lemma sorted_items_sorted (sort : sort_choice) (counts : gmap str Z) :
  sorted_items sort counts ≡ₚ map_to_list counts
  /\ StronglySorted (key_le sort) (sorted_items sort counts).
Proof.
  destruct sort; cbn [sorted_items key_le]; split;
    first [apply merge_sort_Permutation
          | apply StronglySorted_merge_sort; apply _].
Qed.

(** Two items of one table that each come before the other are one. *)
Lemma key_le_antisym (sort : sort_choice) (counts : gmap str Z)
    (kv1 kv2 : str * Z) :
  kv1 ∈ map_to_list counts -> kv2 ∈ map_to_list counts ->
  key_le sort kv1 kv2 -> key_le sort kv2 kv1 -> kv1 = kv2.
Proof.
  destruct kv1 as [k1 c1], kv2 as [k2 c2].
  intros H1%elem_of_map_to_list H2%elem_of_map_to_list.
  assert (E : gene_expression.str_leb k1 k2 = true ->
              gene_expression.str_leb k2 k1 = true -> (k1, c1) = (k2, c2)).
  { intros L1 L2.
    pose proof (gene_expression_spec.str_leb_antisym k1 k2 L1 L2). subst k2.
    congruence. }
  destruct sort; cbn [key_le]; unfold count_key_le, kmer_key_le;
    cbn [fst snd]; [|exact E].
  intros [?|[? L1]] [?|[? L2]]; try lia. by apply E.
Qed.

(** X11.  When [main] prints, it prints one line [kmer<TAB>count] for each
    k-mer of the table of the validated sequence and no other line; with
    [--sort count] the lines go by descending count, equal counts by
    ascending k-mer, with [--sort kmer] by ascending k-mer.  No two lines
    carry the same k-mer, and the order is the only one with these
    properties, whatever order the dict enumerates its items in. *)
Theorem main_prints_sorted (upper_ext : N -> list N)
    (sequence : str) (kmer_size : Z) (sort : sort_choice) (lines : list line)
    (Hmain : main upper_ext sequence kmer_size sort = Printed lines) :
  exists (seq : str) (counts : gmap str Z) (items : list (str * Z)),
    validate_sequence upper_ext (Some sequence) = Ok seq
    /\ count_kmers seq kmer_size = Ok counts
    /\ lines = map item_line items
    /\ (forall kmer cnt, (kmer, cnt) ∈ items <-> counts !! kmer = Some cnt)
    /\ NoDup (map fst items)
    /\ StronglySorted (key_le sort) items
    /\ (forall items', items' ≡ₚ map_to_list counts ->
                       StronglySorted (key_le sort) items' -> items' = items).
Proof.
  unfold main in Hmain.
  destruct (validate_sequence upper_ext (Some sequence)) as [seq|e] eqn:Ev;
    [|destruct e; discriminate].
  destruct (count_kmers seq kmer_size) as [counts|e] eqn:Ec;
    [|destruct e; discriminate].
  injection Hmain as <-.
  destruct (sorted_items_sorted sort counts) as [P S].
  exists seq, counts, (sorted_items sort counts).
  split; [done|]. split; [done|]. split; [done|]. split; [|split; [|split]].
  - intros kmer cnt. rewrite P. apply elem_of_map_to_list.
  - rewrite P. apply NoDup_fst_map_to_list.
  - exact S.
  - intros items' P' S'.
    apply (StronglySorted_unique_strong (key_le sort)); try done.
    + intros x1 x2 H1 H2. rewrite P' in H1. rewrite P in H2.
      by apply (key_le_antisym sort counts).
    + by rewrite P, P'.
Qed.

Lemma main_prints_sorted_witness :
  exists (seq : str) (counts : gmap str Z) (items : list (str * Z)),
    validate_sequence latin1_upper (Some (lit "atcgatcga")) = Ok seq
    /\ count_kmers seq 3 = Ok counts
    /\ [ [Txt (lit "ATC" ++ [9%N] ++ lit "2")];
         [Txt (lit "CGA" ++ [9%N] ++ lit "2")];
         [Txt (lit "TCG" ++ [9%N] ++ lit "2")];
         [Txt (lit "GAT" ++ [9%N] ++ lit "1")] ] = map item_line items
    /\ (forall kmer cnt, (kmer, cnt) ∈ items <-> counts !! kmer = Some cnt)
    /\ NoDup (map fst items)
    /\ StronglySorted (key_le by_count) items
    /\ (forall items', items' ≡ₚ map_to_list counts ->
                       StronglySorted (key_le by_count) items' ->
                       items' = items).
Proof.
  apply (main_prints_sorted latin1_upper (lit "atcgatcga") 3 by_count).
  vm_compute. reflexivity.
Defined.

Lemma validate_sequence_raises upper_ext seq e :
  validate_sequence upper_ext seq = Raise e -> exists msg, e = ValueError msg.
Proof.
  unfold validate_sequence. destruct seq as [seq|]; [|intros [= <-]; eauto].
  destruct (_ =? _)%nat; [intros [= <-]; eauto|].
  destruct (bool_decide _); [intros [= <-]; eauto | discriminate].
Qed.

Lemma count_kmers_raises seq k e :
  count_kmers seq k = Raise e ->
  (e = ValueError msg_k_positive /\ (k <= 0)%Z)
  \/ (e = ValueError msg_k_too_large /\ (0 < k)%Z /\ (len seq < k)%Z).
Proof.
  unfold count_kmers.
  destruct (Z.leb_spec k 0); [intros [= <-]; auto|].
  destruct (Z.ltb_spec (len seq) k); [intros [= <-]; auto | discriminate].
Qed.

(** X12.  [main] lets no exception escape: it ends in [parser.error] or
    prints.  It ends in [parser.error] exactly when the sequence is
    rejected by [validate_sequence], with its message, or the validated
    sequence is given a [k] that is not positive or exceeds its length,
    with the message of [count_kmers]; in particular the default [k = 3]
    is refused for a valid sequence of fewer than three bases. *)
Theorem main_parser_error (upper_ext : N -> list N)
    (sequence : str) (kmer_size : Z) (sort : sort_choice) :
  (forall e, main upper_ext sequence kmer_size sort <> Uncaught e)
  /\ (forall msg,
        main upper_ext sequence kmer_size sort = ParserError msg
        <-> validate_sequence upper_ext (Some sequence) = Raise (ValueError msg)
            \/ exists seq,
                 validate_sequence upper_ext (Some sequence) = Ok seq
                 /\ ((msg = msg_k_positive /\ (kmer_size <= 0)%Z)
                     \/ (msg = msg_k_too_large /\ (0 < kmer_size)%Z
                         /\ (len seq < kmer_size)%Z))).
Proof.
  unfold main.
  destruct (validate_sequence upper_ext (Some sequence)) as [seq|e] eqn:Ev.
  - destruct (count_kmers seq kmer_size) as [counts|e] eqn:Ec.
    + split; [discriminate|]. intros msg. split; [discriminate|].
      intros [H|(seq' & [= <-] & H)]; [discriminate|].
      unfold count_kmers in Ec.
      destruct (Z.leb_spec kmer_size 0); [discriminate|].
      destruct (Z.ltb_spec (len seq) kmer_size); [discriminate|]. lia.
    + destruct (count_kmers_raises _ _ _ Ec) as [[-> Hk]|(-> & Hk1 & Hk2)].
      * split; [discriminate|]. intros msg. split.
        -- intros [= <-]. right. exists seq. auto.
        -- intros [H|(seq' & [= <-] & [[-> _]|(_ & ? & _)])];
             [discriminate | done | lia].
      * split; [discriminate|]. intros msg. split.
        -- intros [= <-]. right. exists seq. auto.
        -- intros [H|(seq' & [= <-] & [[_ ?]|[-> _]])];
             [discriminate | lia | done].
  - destruct (validate_sequence_raises _ _ _ Ev) as [m ->].
    split; [discriminate|]. intros msg. split.
    + intros [= <-]. by left.
    + intros [[= <-]|(seq' & H & _)]; [done | discriminate].
Qed.

Example main_default_k_too_large upper_ext sort :
  main upper_ext (lit "at") 3 sort = ParserError msg_k_too_large.
Proof. destruct sort; vm_compute; reflexivity. Qed.

Example main_sorted_by_kmer :
  main latin1_upper (lit "atcgatcga") 3 by_kmer
  = Printed [ [Txt (lit "ATC" ++ [9%N] ++ lit "2")];
              [Txt (lit "CGA" ++ [9%N] ++ lit "2")];
              [Txt (lit "GAT" ++ [9%N] ++ lit "1")];
              [Txt (lit "TCG" ++ [9%N] ++ lit "2")] ].
Proof. vm_compute. reflexivity. Qed.

End k_mers_more.

(** ** gene_expression.py *)

Module gene_expression_more.
Import gene_expression gene_expression_spec.

Lemma filter_gene_perm df threshold :
  filter_gene df threshold
    ≡ₚ List.filter (fun r => PyFloat.geb (expression r) threshold) df.
Proof. unfold filter_gene, sort_values_gene. apply merge_sort_Permutation. Qed.

Lemma filter_gene_nil df threshold :
  filter_gene df threshold = []
  <-> Forall (fun r => PyFloat.geb (expression r) threshold = false) df.
Proof.
  split.
  - intros H. pose proof (filter_gene_perm df threshold) as P.
    rewrite H in P. apply Permutation_nil_l in P. clear H.
    induction df as [|r df IH]; [constructor|]. simpl in P.
    destruct (PyFloat.geb (expression r) threshold) eqn:E; [discriminate|].
    constructor; [exact E | by apply IH].
  - intros H. apply Permutation_nil_r. rewrite filter_gene_perm.
    induction H as [|r df Hr _ IH]; [done|]. simpl. by rewrite Hr.
Qed.

Lemma geb_nan x : PyFloat.geb x S754_nan = false /\ PyFloat.geb S754_nan x = false.
Proof. split; destruct x; reflexivity. Qed.

(** X13.  A NaN never passes the comparison: a row whose expression is NaN
    is retained at no threshold, and with a NaN threshold [filter_gene]
    retains nothing, so that [main] reports that no gene was found. *)
Theorem filter_gene_nan (df : list row) (threshold : PyFloat.float) :
  (forall r, r ∈ filter_gene df threshold -> expression r <> S754_nan)
  /\ filter_gene df S754_nan = []
  /\ main df S754_nan
     = IO [[Txt (lit "No se encontraron genes por encima del threshold.")]]
          (Ok tt).
Proof.
  assert (E : filter_gene df S754_nan = []).
  { apply filter_gene_nil, Forall_forall. intros r _. apply geb_nan. }
  split; [|split; [exact E|]].
  - intros r Hr Hn. rewrite filter_gene_perm in Hr.
    apply list_elem_of_In, filter_In in Hr as [_ Hr].
    rewrite Hn in Hr. destruct threshold; discriminate.
  - unfold main. rewrite E. reflexivity.
Qed.

(** X14.  [main] prints the "no genes" message, alone, exactly when no row
    of the table reaches the threshold; otherwise it prints the heading
    and then one line for every row that reaches it, the gene
    identifiers of [filter_gene] in its order. *)
Theorem main_report (df : list row) (threshold : PyFloat.float) :
  (Forall (fun r => PyFloat.geb (expression r) threshold = false) df ->
   main df threshold
   = IO [[Txt (lit "No se encontraron genes por encima del threshold.")]]
        (Ok tt))
  /\ (Exists (fun r => PyFloat.geb (expression r) threshold = true) df ->
      main df threshold
      = IO ([Txt (lit "Genes filtrados:")]
              :: map (fun r => [Txt (gene r)]) (filter_gene df threshold))
           (Ok tt)
      /\ length (filter_gene df threshold)
         = length (List.filter
                     (fun r => PyFloat.geb (expression r) threshold) df)).
Proof.
  split.
  - intros H. apply filter_gene_nil in H. unfold main. by rewrite H.
  - intros H. split; [|by rewrite filter_gene_perm].
    unfold main. destruct (filter_gene df threshold) eqn:E; [|reflexivity].
    apply filter_gene_nil in E. rewrite Forall_forall in E.
    apply Exists_exists in H as (r & Hr & Hp).
    rewrite (E r Hr) in Hp. discriminate.
Qed.

Lemma main_report_witness :
  main example_table (PyFloat.decimal 11 0)
  = IO [[Txt (lit "No se encontraron genes por encima del threshold.")]]
       (Ok tt)
  /\ main example_table (PyFloat.decimal 10 0)
     = IO ([Txt (lit "Genes filtrados:")]
             :: map (fun r => [Txt (gene r)])
                    (filter_gene example_table (PyFloat.decimal 10 0)))
          (Ok tt).
Proof.
  split.
  - apply (proj1 (main_report example_table (PyFloat.decimal 11 0))).
    repeat constructor.
  - apply (proj2 (main_report example_table (PyFloat.decimal 10 0))).
    apply Exists_cons_tl, Exists_cons_hd. reflexivity.
Defined.

Ltac compare_cases :=
  repeat match goal with
         | |- context [Z.compare ?x ?y] => destruct (Z.compare_spec x y)
         | |- context [Pos.compare_cont Eq ?x ?y] =>
           change (Pos.compare_cont Eq x y) with (Pos.compare x y);
           destruct (Pos.compare_spec x y)
         end.

(** [>=] on floats is transitive. *)
Lemma geb_trans (x y z : PyFloat.float) :
  PyFloat.geb x y = true -> PyFloat.geb y z = true -> PyFloat.geb x z = true.
Proof.
  unfold PyFloat.geb, SFleb, SFcompare.
  destruct x as [[]|[]| |[] mx ex], y as [[]|[]| |[] my ey],
    z as [[]|[]| |[] mz ez]; try done;
    compare_cases; cbn; try done; try lia.
Qed.

(** X15.  Raising the threshold adds no gene: a row retained at a threshold
    is retained at every lower one. *)
Theorem filter_gene_monotone (df : list row) (low high : PyFloat.float)
    (Hle : PyFloat.geb high low = true) :
  forall r, r ∈ filter_gene df high -> r ∈ filter_gene df low.
Proof.
  intros r. rewrite !filter_gene_perm, !list_elem_of_In, !filter_In.
  intros [Hr He]. split; [exact Hr|]. by apply (geb_trans _ high).
Qed.

Lemma filter_gene_monotone_witness :
  PyFloat.geb (PyFloat.decimal 10 0) (PyFloat.decimal 5 0) = true
  /\ forall r, r ∈ filter_gene example_table (PyFloat.decimal 10 0) ->
               r ∈ filter_gene example_table (PyFloat.decimal 5 0).
Proof.
  split; [reflexivity|].
  apply (filter_gene_monotone example_table). reflexivity.
Defined.

End gene_expression_more.

(** ** rps.py *)

Module rps_more.
Import rps rps_spec rps_cli.

(** The dict [wins] maps a string to what it beats. *)
Lemma wins_lookup (user cpu : str) :
  (<[lit "rock" := lit "scissors"]>
   (<[lit "scissors" := lit "paper"]>
   (<[lit "paper" := lit "rock"]> (∅ : gmap str str)))) !! user = Some cpu
  <-> beats user cpu.
Proof.
  unfold beats. rewrite !lookup_insert_Some, lookup_empty. split.
  - intros [[<- <-]|[_ [[<- <-]|[_ [[<- <-]|[_ ?]]]]]]; auto; discriminate.
  - intros [[-> ->]|[[-> ->]|[-> ->]]].
    + by left.
    + right. split; [discriminate|]. by left.
    + right. split; [discriminate|]. right. split; [discriminate|]. by left.
Qed.

Lemma determine_result_cases (user cpu : str) :
  (user = cpu /\ determine_result user cpu = lit "draw")
  \/ (user <> cpu /\ beats user cpu /\ determine_result user cpu = lit "win")
  \/ (user <> cpu /\ ~ beats user cpu
      /\ determine_result user cpu = lit "lose").
Proof.
  unfold determine_result.
  destruct (decide (user = cpu)) as [E|E].
  - left. by rewrite bool_decide_eq_true_2.
  - right. rewrite bool_decide_eq_false_2 by done.
    destruct (decide (beats user cpu)) as [B|B].
    + left. by rewrite bool_decide_eq_true_2 by (by apply wins_lookup).
    + right. rewrite bool_decide_eq_false_2; [done|].
      by rewrite wins_lookup.
Qed.

Lemma beats_valid user cpu :
  beats user cpu ->
  user ∈ VALID_CHOICES /\ cpu ∈ VALID_CHOICES /\ user <> cpu
  /\ ~ beats cpu user.
Proof.
  unfold beats, VALID_CHOICES.
  intros [[-> ->]|[[-> ->]|[-> ->]]];
    (split; [set_solver|]; split; [set_solver|]; split; [discriminate|]);
    intros [[? ?]|[[? ?]|[? ?]]]; discriminate.
Qed.

(** X16.  Whatever two strings it is given, [determine_result] returns one
    of "draw", "win", "lose": "draw" exactly when the strings are equal,
    "win" exactly when the user's beats the CPU's in the cycle (so only
    for valid choices), and "lose" in every other case. *)
Theorem determine_result_any (user cpu : str) :
  (determine_result user cpu = lit "draw" <-> user = cpu)
  /\ (determine_result user cpu = lit "win" <-> beats user cpu)
  /\ (determine_result user cpu = lit "lose"
      <-> user <> cpu /\ ~ beats user cpu)
  /\ (determine_result user cpu = lit "win" ->
      user ∈ VALID_CHOICES /\ cpu ∈ VALID_CHOICES).
Proof.
  pose proof (beats_valid user cpu) as V.
  destruct (determine_result_cases user cpu)
    as [[E ->]|[(E & B & ->)|(E & B & ->)]];
    (split; [|split; [|split]]); try split; intros;
    try match goal with
        | H : lit _ = lit _ |- _ => vm_compute in H; discriminate H
        end;
    try reflexivity; try tauto.
Qed.

(** X17.  The game is zero-sum: when the user wins against the CPU's
    choice, the CPU's choice played as the user loses against the user's;
    and for two valid choices the converse holds too. *)
Theorem determine_result_zero_sum (user cpu : str) :
  (determine_result user cpu = lit "win" ->
   determine_result cpu user = lit "lose")
  /\ (user ∈ VALID_CHOICES -> cpu ∈ VALID_CHOICES ->
      determine_result cpu user = lit "lose" ->
      determine_result user cpu = lit "win").
Proof.
  split.
  - destruct (determine_result_cases user cpu)
      as [[E ->]|[(E & B & ->)|(E & B & ->)]];
      try (intros H; vm_compute in H; discriminate H).
    intros _. apply beats_valid in B as (_ & _ & _ & Hn).
    destruct (determine_result_cases cpu user)
      as [[E' ->]|[(E' & B' & ->)|(E' & B' & ->)]]; congruence.
  - unfold VALID_CHOICES. rewrite !elem_of_cons, !elem_of_nil.
    intros [->|[->|[->|[]]]] [->|[->|[->|[]]]]; vm_compute; intros Hlose;
      first [reflexivity | discriminate Hlose].
Qed.

Lemma determine_result_zero_sum_witness :
  determine_result (lit "paper") (lit "rock") = lit "win"
  /\ determine_result (lit "rock") (lit "paper") = lit "lose".
Proof.
  assert (H : determine_result (lit "paper") (lit "rock") = lit "win")
    by reflexivity.
  split; [exact H|].
  exact (proj1 (determine_result_zero_sum (lit "paper") (lit "rock")) H).
Defined.

Section WithRuntime.
Variable lower : str -> str.
Variable draws : nat -> nat.

(** A line on which the user only presses ENTER, or types blanks. *)
Definition quits (l : str) : bool := bool_decide (lower (strip l) = []).

(** A line that names one of the three choices. *)
Definition plays (l : str) : bool :=
  bool_decide (lower (strip l) ∈ VALID_CHOICES).

Lemma play_valid draw user :
  user ∈ VALID_CHOICES ->
  exists c, play draw user = Ok (c, determine_result user c).
Proof.
  intros Hu. unfold play. rewrite bool_decide_eq_true_2 by done.
  destruct (random_choice_valid draw) as (c & _ & Hr).
  exists c. by rewrite Hr.
Qed.

Lemma loop_ending lines played :
  (loop lower draws lines played).2
  = if existsb quits lines then Finished else EndOfInput.
Proof.
  revert played. induction lines as [|l rest IH]; intros played; [done|].
  cbn [loop existsb]. unfold quits at 1.
  destruct (bool_decide (lower (strip l) = [])); [done|]. cbn [orb].
  destruct (bool_decide (lower (strip l) ∈ VALID_CHOICES)) eqn:Ev; cbn [negb].
  - apply bool_decide_eq_true in Ev.
    destruct (play_valid (draws played) _ Ev) as (c & ->).
    specialize (IH (S played)).
    destruct (loop lower draws rest (S played)). exact IH.
  - specialize (IH played).
    destruct (loop lower draws rest played). exact IH.
Qed.

Lemma loop_stops pre l rest played :
  quits l = true ->
  loop lower draws (pre ++ l :: rest) played
  = loop lower draws (pre ++ [l]) played.
Proof.
  intros Hq. revert played.
  induction pre as [|x pre IH]; intros played.
  - cbn [app loop]. unfold quits in Hq. by rewrite Hq.
  - cbn [app loop]. fold (pre ++ l :: rest). fold (pre ++ [l]).
    destruct (bool_decide (lower (strip x) = [])); [done|].
    destruct (negb _); [by rewrite IH|].
    destruct (play _ _) as [[c r]|e]; [by rewrite IH | done].
Qed.

(** The rounds played: the lines naming a choice before the first line
    that quits. *)
Fixpoint rounds (lines : list str) : nat :=
  match lines with
  | [] => 0
  | l :: rest =>
    if quits l then 0
    else if plays l then S (rounds rest) else rounds rest
  end.

Definition is_cpu_line (e : event) : bool :=
  match e with
  | Print text => bool_decide (take 5 text = lit "CPU: ")
  | Input _ => false
  end.

Lemma loop_rounds lines played :
  length (List.filter is_cpu_line (loop lower draws lines played).1)
  = rounds lines.
Proof.
  revert played. induction lines as [|l rest IH]; intros played; [done|].
  cbn [loop rounds]. unfold quits at 1, plays at 1.
  destruct (bool_decide (lower (strip l) = [])); [done|].
  destruct (bool_decide (lower (strip l) ∈ VALID_CHOICES)) eqn:Ev; cbn [negb].
  - apply bool_decide_eq_true in Ev.
    destruct (play_valid (draws played) _ Ev) as (c & ->).
    specialize (IH (S played)).
    destruct (loop lower draws rest (S played)) as [events e].
    cbn [fst] in *. cbn [List.filter is_cpu_line].
    rewrite bool_decide_eq_true_2 by reflexivity.
    destruct (bool_decide (determine_result _ c = lit "win"));
      [|destruct (bool_decide (take 5 (lit "Resultado: " ++ _) = _)) eqn:E;
        [apply bool_decide_eq_true in E; discriminate|]];
      [destruct (bool_decide (take 5 (lit "Resultado: " ++ _) = _)) eqn:E;
        [apply bool_decide_eq_true in E; discriminate|]|];
      cbn [app List.filter is_cpu_line length]; try (by rewrite IH).
    change (bool_decide (take 5 celebration = lit "CPU: ")) with false.
    cbn [length]. by rewrite IH.
  - specialize (IH played).
    destruct (loop lower draws rest played) as [events e].
    cbn [fst] in *. cbn [List.filter is_cpu_line].
    change (bool_decide (take 5 msg_invalid_input = lit "CPU: ")) with false.
    exact IH.
Qed.
End WithRuntime.

(** X18.  The game loop lets no exception of [play] escape, since it
    checks the choice first.  It ends by leaving the loop exactly when one
    of the lines read is empty once stripped and lowercased, and by
    [EOFError] when the input runs out before such a line; and it plays
    one round, printing one "CPU:" line, for every line naming a choice
    before the line that quits. *)
Theorem main_ending (lower : str -> str) (draws : nat -> nat)
    (lines : list str) :
  (main lower draws lines).2
  = (if existsb (quits lower) lines then Finished else EndOfInput)
  /\ (forall e, (main lower draws lines).2 <> Uncaught e)
  /\ length (List.filter is_cpu_line (main lower draws lines).1)
     = rounds lower lines.
Proof.
  pose proof (loop_ending lower draws lines 0) as H.
  pose proof (loop_rounds lower draws lines 0) as R.
  unfold main. destruct (loop lower draws lines 0) as [events e].
  cbn [fst snd] in *. split; [exact H|]. split.
  - intros e'. rewrite H. destruct (existsb _ _); discriminate.
  - rewrite List.filter_app.
    change (List.filter is_cpu_line banner) with (@nil event). exact R.
Qed.

(** X19.  Nothing after the line that quits is read: the lines that
    follow it change neither what [main] prints nor how it ends. *)
Theorem main_stops_at_quit (lower : str -> str) (draws : nat -> nat)
    (pre : list str) (l : str) (rest : list str)
    (Hquit : quits lower l = true) :
  main lower draws (pre ++ l :: rest) = main lower draws (pre ++ [l]).
Proof. unfold main. by rewrite (loop_stops lower draws pre l rest 0 Hquit). Qed.

Lemma main_stops_at_quit_witness :
  quits ascii_lower (lit "  ") = true
  /\ main ascii_lower (fun n => n) ([lit "Rock"; lit "spock"] ++ lit "  " :: [lit "paper"])
     = main ascii_lower (fun n => n) ([lit "Rock"; lit "spock"] ++ [lit "  "]).
Proof.
  split; [reflexivity|].
  apply (main_stops_at_quit ascii_lower (fun n => n)
           [lit "Rock"; lit "spock"] (lit "  ") [lit "paper"]).
  reflexivity.
Defined.

(** A session: a round won, an invalid entry, then ENTER. *)
Example main_session :
  main ascii_lower (fun _ => 2%nat) [lit " Rock "; lit "spock"; lit ""]
  = (banner
     ++ [ Input prompt; Print (lit "CPU: scissors");
          Print (lit "Resultado: win"); Print celebration;
          Input prompt; Print msg_invalid_input;
          Input prompt; Print farewell ],
     Finished).
Proof. vm_compute. reflexivity. Qed.

End rps_more.

(** ** at_content.py *)

Module at_content_more.
Import at_content PyFloat PyFloatFacts PyStrFacts PyStrMore at_content_spec.

Lemma round_never_divides x ndigits : round x ndigits <> Raise ZeroDivisionError.
Proof.
  unfold round. destruct x as [s|s| |s m e]; try discriminate.
  destruct (323 <? ndigits)%Z; [discriminate|].
  destruct (ndigits <? -308)%Z; [discriminate|].
  destruct (_ =? 0)%Z; [discriminate|].
  destruct (of_ratio _ _); discriminate.
Qed.

(** X20.  [get_at_content] fails with [ZeroDivisionError] on the empty
    sequence, whatever the precision, and on no other sequence. *)
Theorem get_at_content_zero_division
    (upper_ext : N -> list N) (dna : str) (sig_figs : Z) :
  get_at_content upper_ext dna sig_figs = Raise ZeroDivisionError
  <-> upper upper_ext dna = [].
Proof.
  unfold get_at_content. split.
  - destruct (upper upper_ext dna) as [|c s] eqn:E; [done|].
    intros H. exfalso. revert H.
    pose proof (count_AT_le (c :: s)) as Hle.
    pose proof (count_nonneg 65 (c :: s)) as HA.
    pose proof (count_nonneg 84 (c :: s)) as HT.
    assert (Hpos : (0 < len (c :: s))%Z) by (unfold len; simpl; lia).
    set (n := (count 65 (c :: s) + count 84 (c :: s))%Z) in *.
    unfold true_div.
    replace (len (c :: s) =? 0)%Z with false
      by (symmetry; apply Z.eqb_neq; lia).
    destruct (n =? 0)%Z eqn:E0.
    + cbn. discriminate.
    + apply Z.eqb_neq in E0.
      rewrite Z.sgn_pos, Z.mul_1_r, Z.abs_eq by lia.
      destruct (of_ratio_unit n (len (c :: s))) as (q & -> & _); [lia|].
      cbn. apply round_never_divides.
  - intros ->. reflexivity.
Qed.

Lemma count_perm c (s t : str) : s ≡ₚ t -> count c s = count c t.
Proof.
  induction 1 as [|x s t _ IH|x y s|s t v _ IH1 _ IH2]; simpl; lia.
Qed.

(** X21.  The result depends on the symbols only, not on their order: two
    sequences that are permutations of each other, a sequence and its
    reverse among them, have the same AT content. *)
Theorem get_at_content_permutation
    (upper_ext : N -> list N) (dna dna' : str) (sig_figs : Z)
    (Hperm : dna ≡ₚ dna') :
  get_at_content upper_ext dna sig_figs
  = get_at_content upper_ext dna' sig_figs.
Proof.
  assert (P : upper upper_ext dna ≡ₚ upper upper_ext dna').
  { unfold upper. rewrite !flat_map_concat_map. by rewrite Hperm. }
  unfold get_at_content.
  rewrite (count_perm 65 _ _ P), (count_perm 84 _ _ P).
  unfold len. by rewrite P.
Qed.

Lemma get_at_content_permutation_witness :
  lit "AATGC" ≡ₚ rev (lit "AATGC")
  /\ get_at_content latin1_upper (lit "AATGC") 2
     = get_at_content latin1_upper (rev (lit "AATGC")) 2.
Proof.
  assert (H : lit "AATGC" ≡ₚ rev (lit "AATGC"))
    by apply Permutation_rev.
  split; [exact H|].
  exact (get_at_content_permutation latin1_upper _ _ 2 H).
Defined.

Lemma ascii_upper_idempotent c : ascii_upper (ascii_upper c) = ascii_upper c.
Proof.
  unfold ascii_upper.
  destruct ((97 <=? c) && (c <=? 122))%N eqn:E; [|by rewrite E].
  apply andb_prop in E as [E1 E2]. apply N.leb_le in E1, E2.
  replace (97 <=? c - 32)%N with false by (symmetry; apply N.leb_gt; lia).
  reflexivity.
Qed.

(** X22.  On ASCII input the function is case-insensitive: two sequences
    that differ in the case of their letters only have the same AT
    content, and uppercasing the sequence beforehand changes nothing. *)
Theorem get_at_content_case_insensitive
    (upper_ext : N -> list N) (dna dna' : str) (sig_figs : Z)
    (Hascii : Forall (fun c => (c < 128)%N) dna)
    (Hascii' : Forall (fun c => (c < 128)%N) dna')
    (Hcase : map ascii_upper dna = map ascii_upper dna') :
  get_at_content upper_ext dna sig_figs
  = get_at_content upper_ext dna' sig_figs
  /\ get_at_content upper_ext (upper upper_ext dna) sig_figs
     = get_at_content upper_ext dna sig_figs.
Proof.
  assert (U : forall s, Forall (fun c => (c < 128)%N) s ->
                        upper upper_ext (upper upper_ext s)
                        = upper upper_ext s).
  { intros s Hs. rewrite (upper_ascii upper_ext s Hs).
    rewrite upper_ascii.
    - rewrite map_map. apply map_ext. intros c. apply ascii_upper_idempotent.
    - apply Forall_map. eapply Forall_impl; [exact Hs|].
      intros c Hc. simpl in *. unfold ascii_upper.
      destruct (_ && _)%N; lia. }
  unfold get_at_content. rewrite (U dna Hascii).
  rewrite (upper_ascii upper_ext dna Hascii),
          (upper_ascii upper_ext dna' Hascii'), Hcase.
  done.
Qed.

Lemma get_at_content_case_insensitive_witness :
  get_at_content latin1_upper (lit "atGnnnC") 1
  = get_at_content latin1_upper (lit "ATGNNNc") 1
  /\ get_at_content latin1_upper (upper latin1_upper (lit "atGnnnC")) 1
     = get_at_content latin1_upper (lit "atGnnnC") 1.
Proof.
  apply (get_at_content_case_insensitive latin1_upper
           (lit "atGnnnC") (lit "ATGNNNc") 1);
    [repeat constructor | repeat constructor | reflexivity].
Defined.

End at_content_more.
